(** * dlsp.py: a two-phase catalogue scraper

    A shallow embedding of [src/dlsp.py] and the properties of its
    retrying fetch, listing scan, detail extraction and record writer.

    Conventions of the embedding.
    - Python [str] values are [string]s; a character is a code point
      below 256 ([ascii] read as Latin-1), on which Python's
      [str.isspace], [str.lower] and the [re] classes [\d] and [\s] are
      written out exactly.
    - A parsed document (what [BeautifulSoup] hands back) is a forest
      of text and element nodes; the parser itself is a parameter.
    - Effects (sleeping, requests, logging, the results directory) are
      threaded through an explicit [world]; Python exceptions are the
      [Raise] results of a small state-and-error monad. *)

From Stdlib Require Import ZArith Lia Ascii String List Permutation DecimalString
  DecimalZ.
From stdpp Require Import base option list gmap strings.

Local Open Scope Z_scope.

(** ** Text primitives *)

Module Text.

(** [str.isspace] on code points below 256: TAB..CR, FS..US and the
    blank, NEL (U+0085) and the no-break space (U+00A0). *)
Definition py_isspace (c : ascii) : bool :=
  let n := N_of_ascii c in
  (((9 <=? n) && (n <=? 13)) || ((28 <=? n) && (n <=? 32))
   || (n =? 133) || (n =? 160))%N.

(** [\d] of a [str] pattern: the decimal digits (category Nd); below 256
    these are 0..9 only. *)
Definition py_isdigit (c : ascii) : bool :=
  let n := N_of_ascii c in ((48 <=? n) && (n <=? 57))%N.

(** [str.lower] on one code point: A..Z, and the Latin-1 capitals
    U+00C0..U+00DE except the multiplication sign U+00D7. *)
Definition py_lower_char (c : ascii) : ascii :=
  let n := N_of_ascii c in
  if (((65 <=? n) && (n <=? 90))
      || ((192 <=? n) && (n <=? 222) && negb (n =? 215)))%N
  then ascii_of_N (n + 32) else c.

Fixpoint lower (s : string) : string :=
  match s with
  | EmptyString => EmptyString
  | String c r => String (py_lower_char c) (lower r)
  end.

Fixpoint lstrip (s : string) : string :=
  match s with
  | EmptyString => EmptyString
  | String c r => if py_isspace c then lstrip r else s
  end.

Fixpoint rstrip (s : string) : string :=
  match s with
  | EmptyString => EmptyString
  | String c r =>
      match rstrip r with
      | EmptyString => if py_isspace c then EmptyString else String c EmptyString
      | r' => String c r'
      end
  end.

(** [s.strip()] *)
Definition strip (s : string) : string := lstrip (rstrip s).

(** [re.sub] of a character class by the empty string: every character
    of the class is dropped. *)
Fixpoint remove_chars (bad : ascii -> bool) (s : string) : string :=
  match s with
  | EmptyString => EmptyString
  | String c r =>
      if bad c then remove_chars bad r else String c (remove_chars bad r)
  end.

(** [s.replace] of the colon by the empty string is [remove_chars] at a
    one-character class. *)
Definition is_colon (c : ascii) : bool := Ascii.eqb c ":".

(** [s.startswith(p)] *)
Fixpoint startswith (p s : string) : bool :=
  match p, s with
  | EmptyString, _ => true
  | String a p', String b s' => Ascii.eqb a b && startswith p' s'
  | String _ _, EmptyString => false
  end.

(** [p in s] (substring test) *)
Fixpoint contains (p s : string) : bool :=
  startswith p s ||
  match s with
  | EmptyString => false
  | String _ r => contains p r
  end.

Fixpoint chars (s : string) : list ascii :=
  match s with
  | EmptyString => []
  | String c r => c :: chars r
  end.

Definition first_char (s : string) : option ascii := head (chars s).
Definition last_char (s : string) : option ascii := last (chars s).

(** [sep.join(parts)] *)
Fixpoint join (sep : string) (parts : list string) : string :=
  match parts with
  | [] => EmptyString
  | [p] => p
  | p :: rest => p +:+ sep +:+ join sep rest
  end.

End Text.

Import Text.

(** ** Constants *)

Definition BASE_URL : string := "https://game-2u.com/Category/game/ps4".
Definition TOTAL_PAGES : Z := 122.
Definition RESULTS_DIR : string := "results".
Definition REQUEST_DELAY : Z := 1.
Definition MAX_RETRIES : Z := 10.
Definition RETRY_DELAY : Z := 5.
Definition THREADS : Z := 10.

(** ** [sanitize_filename] *)

(** The character class of the pattern: backslash, slash, star,
    question mark, colon, double quote (code 34), angle brackets, bar. *)
Definition invalid_chars : list ascii :=
  ["\"; "/"; "*"; "?"; ":"; "034"; "<"; ">"; "|"]%char.

Definition is_invalid_char (c : ascii) : bool :=
  bool_decide (c ∈ invalid_chars).

Definition sanitize_filename (filename : string) : string :=
  strip (remove_chars is_invalid_char filename).

(** ** Parsed documents *)

(** A node of the tree the markup parser returns: a text fragment, or a
    tag with its name, its class list (the multi-valued [class]
    attribute), its other attributes and its contents. *)
Inductive node : Type :=
  | NText (s : string)
  | NElem (name : string) (classes : list string)
          (attrs : gmap string string) (contents : list node).

(** The [BeautifulSoup] object: a tag named [[document]] holding the
    top-level nodes. *)
Definition soup_of (top : list node) : node := NElem "[document]" [] ∅ top.

(** [tag.descendants]: every node below [n], in document order. *)
Fixpoint descendants (n : node) : list node :=
  match n with
  | NText _ => []
  | NElem _ _ _ kids => flat_map (fun k => k :: descendants k) kids
  end.

Definition is_tag (name : string) (n : node) : bool :=
  match n with
  | NText _ => false
  | NElem t _ _ _ => bool_decide (t = name)
  end.

Definition has_class (c : string) (n : node) : bool :=
  match n with
  | NText _ => false
  | NElem _ cls _ _ => bool_decide (c ∈ cls)
  end.

(** [tag.get(key)]; [None] on a text node or a missing attribute. *)
Definition get_attr (key : string) (n : node) : option string :=
  match n with
  | NText _ => None
  | NElem _ _ at_ _ => at_ !! key
  end.

(** [tag.find_all(name)] *)
Definition find_all (name : string) (n : node) : list node :=
  filter (fun k => is_tag name k = true) (descendants n).

(** [tag.find_all("a", href=True)] *)
Definition find_all_a_href (n : node) : list node :=
  filter (fun k => is_tag "a" k && bool_decide (is_Some (get_attr "href" k)) = true)
         (descendants n).

(** [tag.find(name)] *)
Definition find (name : string) (n : node) : option node :=
  head (find_all name n).

(** [soup.find("h1", class_="entry-title")] *)
Definition find_entry_title (n : node) : option node :=
  head (filter (fun k => is_tag "h1" k && has_class "entry-title" k = true)
               (descendants n)).

(** The text fragments below [n] in document order; with [strip_]
    each fragment is stripped and empty ones are dropped. *)
Fixpoint all_strings (strip_ : bool) (n : node) : list string :=
  match n with
  | NText s =>
      if strip_
      then (if bool_decide (strip s = EmptyString) then [] else [strip s])
      else [s]
  | NElem _ _ _ kids => flat_map (all_strings strip_) kids
  end.

(** [tag.get_text()], also [tag.text] *)
Definition get_text (n : node) : string := join EmptyString (all_strings false n).

(** [tag.get_text(strip=True)] *)
Definition get_text_strip (n : node) : string := join EmptyString (all_strings true n).

(** [soup.select("h2.entry-title a")]: the [a] tags with an
    [h2.entry-title] ancestor, in document order. [inside] says that the
    node visited already has such an ancestor. *)
Fixpoint select_from (inside : bool) (n : node) : list node :=
  (if inside && is_tag "a" n then [n] else []) ++
  match n with
  | NText _ => []
  | NElem _ _ _ kids =>
      flat_map
        (select_from (inside || (is_tag "h2" n && has_class "entry-title" n)))
        kids
  end.

Definition select_entry_title_links (soup : node) : list node :=
  select_from false soup.

(** ** The world, and a state-and-exception monad over it *)

Inductive exn : Type :=
  | RequestException (msg : string)
  | HTTPError (status : Z)
  | KeyError (key : string).

(** [except (HTTPError, requests.exceptions.RequestException)] *)
Definition is_request_exception (e : exn) : bool :=
  match e with
  | RequestException _ | HTTPError _ => true
  | KeyError _ => false
  end.

Record Response : Type := mkResponse { status_code : Z; body : string }.

Inductive level : Type := INFO | WARNING | ERROR.

Inductive event : Type :=
  | Sleep (secs : Z)
  | Get (url : string)
  | Log (lvl : level) (about : string)
  | Wrote (path text : string).

(** What a run can observe and change: the effects so far, the results
    directory (file path to content), and the site, which answers the
    [k]-th request of the run with a response or a transport error. *)
Record world : Type := mkWorld {
  trace : list event;
  files : gmap string string;
  site : nat -> string -> exn + Response
}.

Inductive outcome (A : Type) : Type :=
  | Return (a : A)
  | Raise (e : exn).
Arguments Return {A} a.
Arguments Raise {A} e.

Definition M (A : Type) : Type := world -> outcome A * world.

#[global] Instance M_ret : MRet M := fun A a w => (Return a, w).
#[global] Instance M_bind : MBind M := fun A B f m w =>
  match m w with
  | (Return a, w') => f a w'
  | (Raise e, w') => (Raise e, w')
  end.

Definition raise {A} (e : exn) : M A := fun w => (Raise e, w).

(** [try: m  except <handles>: handler(e)] *)
Definition try_except {A} (m : M A) (handles : exn -> bool)
    (handler : exn -> M A) : M A := fun w =>
  match m w with
  | (Return a, w') => (Return a, w')
  | (Raise e, w') => if handles e then handler e w' else (Raise e, w')
  end.

Definition emit (ev : event) : M unit := fun w =>
  (Return tt, mkWorld (trace w ++ [ev]) (files w) (site w)).

Definition is_get (ev : event) : bool :=
  match ev with Get _ => true | _ => false end.

(** Number of requests sent so far. *)
Definition requests (w : world) : nat :=
  length (List.filter is_get (trace w)).

(** [session.get(url, timeout=10)] *)
Definition session_get (url : string) : M Response := fun w =>
  let w' := mkWorld (trace w ++ [Get url]) (files w) (site w) in
  match site w (requests w) url with
  | inl e => (Raise e, w')
  | inr r => (Return r, w')
  end.

(** [response.raise_for_status()] *)
Definition raise_for_status (r : Response) : M unit :=
  if (400 <=? status_code r) && (status_code r <? 600)
  then raise (HTTPError (status_code r)) else mret tt.

(** [with open(path, "w") as f: f.write(text)] *)
Definition write_file (path text : string) : M unit := fun w =>
  (Return tt,
   mkWorld (trace w ++ [Wrote path text]) (<[path := text]> (files w)) (site w)).

(** ** [make_request_with_retry] *)

(** The body of [for attempt in range(max_retries + 1)], with
    [remaining] iterations of the range left. An attempt that raises a
    request exception is handled: before the last index the loop goes
    on after a warning and a pause, at the last index the exception is
    re-raised. A range that runs out falls through to [return None]. *)
Fixpoint retry_loop (url : string) (max_retries attempt : Z)
    (remaining : nat) : M (option Response) :=
  match remaining with
  | O => mret None
  | S remaining' =>
      try_except
        (emit (Sleep REQUEST_DELAY);;
         response ← session_get url;
         raise_for_status response;;
         mret (Some response))
        is_request_exception
        (fun e =>
           if attempt <? max_retries
           then emit (Log WARNING url);;
                emit (Sleep RETRY_DELAY);;
                retry_loop url max_retries (attempt + 1) remaining'
           else emit (Log ERROR url);;
                raise e)
  end.

Definition make_request_with_retry (url : string) (max_retries : Z)
    : M (option Response) :=
  retry_loop url max_retries 0 (Z.to_nat (max_retries + 1)).

(** [bool(response)]: [None] is falsy, a response is truthy when its
    status is not an error status. *)
Definition truthy (response : option Response) : bool :=
  match response with
  | None => false
  | Some r => negb ((400 <=? status_code r) && (status_code r <? 600))
  end.

(** ** Size tokens: the pattern [\d{1,3}\.\d{1,2}\s?GB] *)

Module Re.

(** A matcher lists the ways to match at the head of the text, as
    (matched, rest) pairs in the order the backtracking engine tries
    them. *)
Definition matcher : Type := string -> list (string * string).

(** At most [hi] digits, the longest run first. *)
Fixpoint digits_upto (hi : nat) (s : string) : list (string * string) :=
  match hi, s with
  | S hi', String c r =>
      if py_isdigit c
      then map (fun mr => (String c mr.1, mr.2)) (digits_upto hi' r) ++ [(EmptyString, s)]
      else [(EmptyString, s)]
  | _, _ => [(EmptyString, s)]
  end.

(** [\d{lo,hi}] *)
Definition digits (lo hi : nat) : matcher := fun s =>
  filter (fun mr => (lo ≤ String.length mr.1)%nat) (digits_upto hi s).

Fixpoint drop_chars (n : nat) (s : string) : string :=
  match n, s with
  | S n', String _ r => drop_chars n' r
  | _, _ => s
  end.

(** A literal. *)
Definition lit (p : string) : matcher := fun s =>
  if startswith p s then [(p, drop_chars (String.length p) s)] else [].

(** [\s?] *)
Definition opt_space : matcher := fun s =>
  match s with
  | String c r => if py_isspace c then [(String c EmptyString, r); (EmptyString, s)] else [(EmptyString, s)]
  | EmptyString => [(EmptyString, s)]
  end.

(** Concatenation. *)
Definition seq (p q : matcher) : matcher := fun s =>
  flat_map (fun mr1 => map (fun mr2 => (mr1.1 +:+ mr2.1, mr2.2)) (q mr1.2)) (p s).

Definition size_pattern : matcher :=
  seq (digits 1 3) (seq (lit ".") (seq (digits 1 2) (seq opt_space (lit "GB")))).

(** [pattern.match(s)]: the first way that succeeds. *)
Definition match_at (p : matcher) (s : string) : option string :=
  fst <$> head (p s).

(** [re.findall]: scan from the left; after a match the scan resumes
    behind it, so [skip] characters of the match are still to be
    passed over; where nothing matches the scan moves on one
    character. The pattern has one group, around all of it, so the
    group's text is the match. *)
Fixpoint findall_from (p : matcher) (skip : nat) (s : string) : list string :=
  match s with
  | EmptyString => []
  | String _ r =>
      match skip with
      | S skip' => findall_from p skip' r
      | O =>
          match match_at p s with
          | Some m => m :: findall_from p (String.length m - 1) r
          | None => findall_from p 0 r
          end
      end
  end.

Definition findall (p : matcher) (s : string) : list string :=
  findall_from p 0 s.

End Re.

(** ** Extraction from a detail page *)

Definition nl : string := String "010" EmptyString.

(** [title.text.strip() if title else "Unknown"] *)
Definition game_name_of (soup : node) : string :=
  match find_entry_title soup with
  | Some title => strip (get_text title)
  | None => "Unknown"
  end.

(** [soup.select("table")] *)
Definition info_tables (soup : node) : list node := find_all "table" soup.

(** One row of the first table: rows with fewer than two cells leave
    the dictionary alone. *)
Definition table_row (table_data : gmap string string) (row : node)
    : gmap string string :=
  match find_all "td" row with
  | c0 :: c1 :: _ =>
      let key := remove_chars is_colon (get_text_strip c0) in
      let value := get_text_strip c1 in
      <[key := value]> table_data
  | _ => table_data
  end.

Definition table_data_of (soup : node) : gmap string string :=
  match info_tables soup with
  | [] => ∅
  | first :: _ => fold_left table_row (find_all "tr" first) ∅
  end.

(** [d.get(key, "Unknown")] *)
Definition dict_get (d : gmap string string) (key : string) : string :=
  default "Unknown" (d !! key).

Definition size_matches_of (soup : node) : list string :=
  Re.findall Re.size_pattern (get_text soup).

(** [section_links]: a dict with four keys; iteration follows the
    insertion order, so it is kept as an association list. *)
Abbreviation section_links := (list (string * list string)).

Definition empty_sections : section_links :=
  [("Base Game", []); ("Update", []); ("Fix", []); ("Torrent", [])].

(** [section_links[key].extend(links)] *)
Definition extend (key : string) (links : list string) (sl : section_links)
    : section_links :=
  map (fun kv => if bool_decide (kv.1 = key) then (kv.1, kv.2 ++ links) else kv) sl.

Definition section (key : string) (sl : section_links) : list string :=
  default [] (snd <$> head (filter (fun kv => kv.1 = key) sl)).

(** The f-string of href and stripped text; [a['href']] raises
    [KeyError] on a tag without that attribute. *)
Definition format_link (a : node) : outcome string :=
  match get_attr "href" a with
  | Some href => Return (href +:+ " - " +:+ get_text_strip a)
  | None => Raise (KeyError "href")
  end.

(** A list comprehension whose element expression may raise. *)
Fixpoint comprehension {A B} (f : A -> outcome B) (l : list A) : outcome (list B) :=
  match l with
  | [] => Return []
  | x :: rest =>
      match f x with
      | Raise e => Raise e
      | Return y =>
          match comprehension f rest with
          | Raise e => Raise e
          | Return ys => Return (y :: ys)
          end
      end
  end.

(** The body of [for tr in table.find_all("tr")]. *)
Definition link_row (sl : section_links) (tr : node) : outcome section_links :=
  match find_all "td" tr with
  | c0 :: _ :: _ :: c3 :: _ =>
      let label := lower (strip (get_text c0)) in
      match comprehension format_link (find_all_a_href c3) with
      | Raise e => Raise e
      | Return links =>
          if contains "base" label then Return (extend "Base Game" links sl)
          else if contains "update" label && negb (contains "fix" label)
          then Return (extend "Update" links sl)
          else if contains "fix" label then Return (extend "Fix" links sl)
          else Return sl
      end
  | [c0; _] =>
      if contains "torrent" (lower (get_text c0)) then
        match find "a" c0 with
        | Some a =>
            match format_link a with
            | Raise e => Raise e
            | Return link => Return (extend "Torrent" [link] sl)
            end
        | None => Return sl
        end
      else Return sl
  | _ => Return sl
  end.

Fixpoint link_rows (sl : section_links) (rows : list node) : outcome section_links :=
  match rows with
  | [] => Return sl
  | tr :: rest =>
      match link_row sl tr with
      | Raise e => Raise e
      | Return sl' => link_rows sl' rest
      end
  end.

(** The two nested loops over every table and every row of it. *)
Definition section_links_of (soup : node) : outcome section_links :=
  link_rows empty_sections (flat_map (find_all "tr") (info_tables soup)).

(** The lines of the record. *)
Definition size_lines (size_matches : list string) : list string :=
  match size_matches with
  | [] => ["- Unknown"]
  | _ => map (fun size => "- " +:+ size) size_matches
  end.

Definition link_lines (sl : section_links) : list string :=
  flat_map
    (fun kv =>
       match kv.2 with
       | [] => []
       | links => (nl +:+ "[" +:+ kv.1 +:+ "]") :: map (fun link => "- " +:+ link) links
       end)
    sl.

Definition record_lines (url game_name version language firmware : string)
    (size_matches : list string) (sl : section_links) : list string :=
  ["URL: " +:+ url;
   "Game Name: " +:+ game_name;
   "Game Version: " +:+ version;
   "Language: " +:+ language;
   "Required firmware: " +:+ firmware;
   nl +:+ "Detected Sizes:"]
  ++ size_lines size_matches
  ++ [nl +:+ "Download Links:"]
  ++ link_lines sl.

(** [os.path.join(RESULTS_DIR, sanitize_filename(game_name) + ".txt")];
    the sanitized name holds no slash, so the join is a plain one. *)
Definition filepath_of (game_name : string) : string :=
  RESULTS_DIR +:+ "/" +:+ sanitize_filename game_name +:+ ".txt".

(** Everything [parse_and_save_game] computes from the parsed page
    before it writes: the file path and the file content, or the
    exception raised on the way. *)
Definition extract (url : string) (soup : node) : outcome (string * string) :=
  let game_name := game_name_of soup in
  let table_data := table_data_of soup in
  let version := dict_get table_data "Game Version" in
  let language := dict_get table_data "Language" in
  let firmware := dict_get table_data "Required firmware" in
  let size_matches := size_matches_of soup in
  match section_links_of soup with
  | Raise e => Raise e
  | Return sl =>
      Return (filepath_of game_name,
              join nl (record_lines url game_name version language firmware
                                    size_matches sl))
  end.

Definition lift {A} (o : outcome A) : M A := fun w => (o, w).

Section Scraper.

(** The markup parser, from a response body to the top-level nodes. *)
Variable html_parser : string -> list node.

Definition parse_and_save_game (url : string) : M bool :=
  try_except
    (response ← make_request_with_retry url MAX_RETRIES;
     match response with
     | Some r =>
         if truthy response then
           let soup := soup_of (html_parser (body r)) in
           emit (Log INFO (game_name_of soup));;
           record ← lift (extract url soup);
           write_file record.1 record.2;;
           mret true
         else mret false
     | None => mret false
     end)
    (fun _ => true)
    (fun e => emit (Log ERROR url);; mret false).

(** ** [process_page] *)

(** [str(page_number)] *)
Definition str_of_int (n : Z) : string := NilEmpty.string_of_int (Z.to_int n).

Definition page_url (page_number : Z) : string :=
  if 1 <? page_number
  then BASE_URL +:+ "/page/" +:+ str_of_int page_number
  else BASE_URL.

(** The test of the loop body: a non-empty href that holds [/20] and,
    lowercased, [ps4]. *)
Definition keep_href (href : string) : bool :=
  negb (bool_decide (href = EmptyString)) && contains "/20" href
  && contains "ps4" (lower href).

Definition game_link (link : node) : option string :=
  match get_attr "href" link with
  | Some href => if keep_href href then Some href else None
  | None => None
  end.

Definition game_links_of (soup : node) : list string :=
  omap game_link (select_entry_title_links soup).

Definition process_page (page_number : Z) : M (list string) :=
  try_except
    (let url := page_url page_number in
     response ← make_request_with_retry url MAX_RETRIES;
     match response with
     | Some r =>
         if truthy response
         then mret (game_links_of (soup_of (html_parser (body r))))
         else mret []
     | None => mret []
     end)
    (fun _ => true)
    (fun e => emit (Log WARNING (str_of_int page_number));; mret []).

End Scraper.

(** ** [main] *)

(** [range(1, TOTAL_PAGES + 1)] *)
Definition page_range : list Z := map Z.of_nat (List.seq 1 (Z.to_nat TOTAL_PAGES)).

(** Phase 1. The pool runs one [process_page] task per page, and
    [as_completed] hands the futures back in some order of completion,
    [completed], a rearrangement of the pages; [found page] is what the
    task of that page returned. Each result is appended to
    [all_game_urls]. *)
Definition collect_game_urls (found : Z -> list string) (completed : list Z)
    : list string :=
  fold_left (fun all_game_urls page => all_game_urls ++ found page) completed [].

(** Phase 2. The dict comprehension submits one [parse_and_save_game]
    task per element of [all_game_urls] (its keys are the futures, all
    distinct); [saved i url] is what the [i]-th task returned. *)
Definition submitted_tasks (all_game_urls : list string) : list (nat * string) :=
  imap (fun i url => (i, url)) all_game_urls.

Record run : Type := mkRun {
  all_game_urls : list string;
  tasks : list (nat * string);
  total_games : nat
}.

Definition main (found : Z -> list string) (completed : list Z)
    (saved : nat -> string -> bool) : run :=
  let urls := collect_game_urls found completed in
  let submitted := submitted_tasks urls in
  mkRun urls submitted
        (length (filter (fun t => saved t.1 t.2 = true) submitted)).

(** What a task hands to the pool: its return value (neither task
    function lets an exception out, see below). *)
Definition returned {A} (dflt : A) (r : outcome A * world) : A :=
  match r.1 with
  | Return a => a
  | Raise _ => dflt
  end.

(** ** Vocabulary of the statements *)

Definition leading_space (s : string) : bool :=
  match first_char s with Some c => py_isspace c | None => false end.

Definition trailing_space (s : string) : bool :=
  match last_char s with Some c => py_isspace c | None => false end.

(** An attempt fails when the transport raises a request exception or
    the status is one that [raise_for_status] rejects; it succeeds when
    a response with any other status comes back. *)
Definition error_status (r : Response) : bool :=
  (400 <=? status_code r) && (status_code r <? 600).

Definition attempt_fails (answer : exn + Response) : bool :=
  match answer with
  | inl e => is_request_exception e
  | inr r => error_status r
  end.

Definition attempt_succeeds (answer : exn + Response) : bool :=
  match answer with
  | inl _ => false
  | inr r => negb (error_status r)
  end.

(** The exception an attempt with this answer ends in. *)
Definition attempt_error (answer : exn + Response) : exn :=
  match answer with
  | inl e => e
  | inr r => HTTPError (status_code r)
  end.

(** Requests sent between two worlds. *)
Definition attempts_between (w w' : world) : Z :=
  Z.of_nat (requests w') - Z.of_nat (requests w).

(** The events of a run from [w] to [w'], and the records it wrote. *)
Definition new_events (w w' : world) : list event :=
  drop (length (trace w)) (trace w').

Definition written_record (ev : event) : option (string * string) :=
  match ev with
  | Wrote path text => Some (path, text)
  | _ => None
  end.

Definition records_written (w w' : world) : list (string * string) :=
  omap written_record (new_events w w').

(** The key and value a row of the first table contributes, and the
    pairs of all its rows in document order. *)
Definition attribute_pair (row : node) : option (string * string) :=
  match find_all "td" row with
  | c0 :: c1 :: _ =>
      Some (remove_chars is_colon (get_text_strip c0), get_text_strip c1)
  | _ => None
  end.

Definition attribute_rows (soup : node) : list (string * string) :=
  match info_tables soup with
  | [] => []
  | first :: _ => omap attribute_pair (find_all "tr" first)
  end.

(** The value of the last pair with key [k]. *)
Definition last_value (k : string) (pairs : list (string * string))
    : option string :=
  snd <$> last (filter (fun kv => kv.1 = k) pairs).

(** The attribute mapping in the specification's words: the key is the
    trimmed text of the first cell less one trailing colon, the value
    the trimmed text of the second cell. *)
Fixpoint drop_trailing_colon (s : string) : string :=
  match s with
  | EmptyString => EmptyString
  | String c EmptyString => if is_colon c then EmptyString else s
  | String c r => String c (drop_trailing_colon r)
  end.

Definition trimmed_text (cell : node) : string := strip (get_text cell).

Definition spec_attribute_pair (row : node) : option (string * string) :=
  match find_all "td" row with
  | c0 :: c1 :: _ => Some (drop_trailing_colon (trimmed_text c0), trimmed_text c1)
  | _ => None
  end.

Definition spec_attribute_rows (soup : node) : list (string * string) :=
  match info_tables soup with
  | [] => []
  | first :: _ => omap spec_attribute_pair (find_all "tr" first)
  end.

Definition spec_lookup (soup : node) (k : string) : string :=
  default "Unknown" (last_value k (spec_attribute_rows soup)).

(** Size tokens, declaratively: between one and three digits, a point,
    one or two digits, at most one white-space character, [GB]. *)
Definition digit_run (lo hi : nat) (d : string) : Prop :=
  (lo <= String.length d <= hi)%nat
  /\ Forall (fun c => py_isdigit c = true) (chars d).

Definition optional_space (sp : string) : Prop :=
  sp = EmptyString \/ exists c, sp = String c EmptyString /\ py_isspace c = true.

Definition is_size_token (m : string) : Prop :=
  exists d1 d2 sp,
    m = d1 +:+ "." +:+ d2 +:+ sp +:+ "GB"
    /\ digit_run 1 3 d1 /\ digit_run 1 2 d2 /\ optional_space sp.

(** [scanned text ms]: [ms] lists, from left to right, the size tokens
    of [text] that a left-to-right scan meets: a token at the head of
    the text is taken and the scan goes on behind it; a character is
    passed over only where no token starts. *)
Inductive scanned : string -> list string -> Prop :=
  | scanned_end : scanned EmptyString []
  | scanned_token m rest ms :
      is_size_token m -> scanned rest ms -> scanned (m +:+ rest) (m :: ms)
  | scanned_skip c rest ms :
      (forall m t, is_size_token m -> String c rest <> m +:+ t) ->
      scanned rest ms -> scanned (String c rest) ms.

(** [accepts p L]: the ways [p] matches at the head of a text are the
    splits of the text into a word of [L] and a rest. *)
Definition accepts (p : Re.matcher) (L : string -> Prop) : Prop :=
  forall s m rest, In (m, rest) (p s) <-> L m /\ s = m +:+ rest.

Definition digit_free (s : string) : Prop :=
  Forall (fun c => py_isdigit c = false) (chars s).

(** The category a row label falls in, tried in the order of the
    [if]/[elif] chain. *)
Definition classify (label : string) : option string :=
  if contains "base" label then Some "Base Game"
  else if contains "update" label && negb (contains "fix" label) then Some "Update"
  else if contains "fix" label then Some "Fix"
  else None.

(** The entry of a link that has an href. *)
Definition link_entry (a : node) : string :=
  default EmptyString (get_attr "href" a) +:+ " - " +:+ get_text_strip a.



(** How often [u] occurs in a list of URLs. *)
Definition occurrences (u : string) (urls : list string) : nat :=
  length (filter (fun x => x = u) urls).

(** ** Sample inputs *)

(** A page whose attribute table has the row [Required: firmware] /
    [5.05], with a colon inside the key. *)
Definition colon_page : node :=
  soup_of
    [NElem "table" [] ∅
       [NElem "tr" [] ∅
          [NElem "td" [] ∅ [NText "Required: firmware"];
           NElem "td" [] ∅ [NText "5.05"]]]].

(** A key cell whose text is split over a nested tag. *)
Definition split_key_row : node :=
  NElem "tr" [] ∅
    [NElem "td" [] ∅ [NText "Game "; NElem "b" [] ∅ [NText "Version"]; NText ":"];
     NElem "td" [] ∅ [NText " 1.05 "]].

Definition sizes_sentence : string :=
  "This game is 12.34 GB, patch adds 0.56 GB".

Definition td (contents : list node) : node := NElem "td" [] ∅ contents.
Definition tr (cells : list node) : node := NElem "tr" [] ∅ cells.
Definition anchor (href text : string) : node :=
  NElem "a" [] {["href" := href]} [NText text].

(** The row [Base Game | | | two links]. *)
Definition base_game_row : node :=
  tr [td [NText "Base Game"]; td []; td [];
      td [anchor "https://host/part1" "Part 1"; anchor "https://host/part2" "Part 2"]].

(** A two-cell torrent row whose first anchor is a named anchor, one
    without href, and the page that holds it. *)
Definition torrent_row_without_href : node :=
  tr [td [NText "Torrent "; NElem "a" [] {["name" := "torrent"]} [NText "magnet"]];
      td [NText "see below"]].

Definition torrent_markup : list node :=
  [NElem "h1" ["entry-title"] ∅ [NText "Some Game"];
   NElem "table" [] ∅ [torrent_row_without_href]].

Definition torrent_page : node := soup_of torrent_markup.

(** The same table on a page with no title and no size: all a fetched
    page may lack, and the torrent row with its named anchor. *)
Definition untitled_torrent_markup : list node :=
  [NElem "table" [] ∅ [torrent_row_without_href]].

Definition untitled_torrent_page : node := soup_of untitled_torrent_markup.

(** A page with nothing to extract. *)
Definition bare_markup : list node := [NElem "p" [] ∅ [NText "Coming soon"]].

Definition bare_page : node := soup_of bare_markup.

(** A site that answers every request with status 200 and the URL as
    body, one that never answers, and a parser for the former: the
    first two listing pages both link the same game. *)
Definition echo_site : nat -> string -> exn + Response :=
  fun _ url => inr (mkResponse 200 url).

Definition dead_site : nat -> string -> exn + Response :=
  fun _ _ => inl (RequestException "timed out").

Definition shared_game_url : string := "https://game-2u.com/2024/01/some-game-ps4/".

Definition listing_parser (body : string) : list node :=
  if bool_decide (body = page_url 1) || bool_decide (body = page_url 2)
  then [NElem "h2" ["entry-title"] ∅ [anchor shared_game_url "Some Game"]]
  else [].

Definition fresh_world (site : nat -> string -> exn + Response) : world :=
  mkWorld [] ∅ site.

Definition echo_found (page : Z) : list string :=
  returned [] (process_page listing_parser page (fresh_world echo_site)).

(** A site whose first answer is lost and whose later answers carry
    status 203, and a parser that reads every body as the page of the
    base-game row. *)
Definition flaky_site : nat -> string -> exn + Response :=
  fun k url =>
    if (k =? 0)%nat then inl (RequestException "connection reset")
    else inr (mkResponse 203 url).

Definition detail_parser (body : string) : list node :=
  [NElem "h1" ["entry-title"] ∅ [NText " Some Game "];
   NElem "table" [] ∅ [base_game_row]].

(** ** Vocabulary of the further properties *)

(** The events of one failed attempt that is followed by another, and
    of [k] such attempts in a row. *)
Definition failed_round (url : string) : list event :=
  [Sleep REQUEST_DELAY; Get url; Log WARNING url; Sleep RETRY_DELAY].

Fixpoint failed_rounds (url : string) (k : nat) : list event :=
  match k with
  | O => []
  | S k' => failed_round url ++ failed_rounds url k'
  end.

(** Seconds slept in a list of events, and between two worlds. *)
Definition pause (ev : event) : Z :=
  match ev with Sleep secs => secs | _ => 0 end.

Definition pauses (evs : list event) : Z :=
  foldr (fun ev total => pause ev + total) 0 evs.

Definition slept (w w' : world) : Z := pauses (new_events w w').

(** An [h2] heading of class [entry-title]. *)
Definition entry_title_heading (n : node) : bool :=
  is_tag "h2" n && has_class "entry-title" n.

(** Two detail pages whose titles differ by a colon only, and a parser
    that reads the first for one address and the second for any other. *)
Definition titled_markup (title : string) : list node :=
  [NElem "h1" ["entry-title"] ∅ [NText title]].

Definition colon_title_url : string := "https://game-2u.com/2024/01/game-one-ps4/".

Definition twin_parser (body : string) : list node :=
  if bool_decide (body = colon_title_url)
  then titled_markup "Game: One"
  else titled_markup "Game One".

(** The text of the record of a page, empty when extraction raises. *)
Definition record_text_of (url : string) (soup : node) : string :=
  match extract url soup with
  | Return record => record.2
  | Raise _ => EmptyString
  end.

(** A row that names the base game but has three cells only. *)
Definition short_base_game_row : node :=
  tr [td [NText "Base Game"]; td [];
      td [anchor "https://host/part1" "Part 1"]].

(** A page whose one table holds that row. *)
Definition short_row_page : node :=
  soup_of [NElem "table" [] ∅ [short_base_game_row]].


(** * Properties *)

(** ** Text lemmas *)

Section TextFacts.

Variable bad : ascii -> bool.

Lemma chars_remove_chars s :
  chars (remove_chars bad s) = filter (fun c => bad c = false) (chars s).
Proof.
  induction s as [|c r IH]; [done|]. cbn [remove_chars chars].
  rewrite filter_cons. destruct (bad c) eqn:E.
  - rewrite decide_False by congruence. exact IH.
  - rewrite decide_True by done. cbn. by rewrite IH.
Qed.

Lemma remove_chars_clean s :
  Forall (fun c => bad c = false) (chars s) -> remove_chars bad s = s.
Proof.
  induction s as [|c r IH]; [done|]. cbn [chars remove_chars].
  intros H. apply Forall_cons in H as [-> H]. f_equal. by apply IH.
Qed.

Lemma remove_chars_Forall s :
  Forall (fun c => bad c = false) (chars (remove_chars bad s)).
Proof.
  rewrite chars_remove_chars. apply Forall_forall. intros c Hc.
  by apply list_elem_of_filter in Hc as [? _].
Qed.

End TextFacts.

Lemma chars_lstrip_suffix s : chars (lstrip s) `suffix_of` chars s.
Proof.
  induction s as [|c r IH]; [done|]. cbn [lstrip].
  destruct (py_isspace c); [|done]. cbn [chars]. by apply suffix_cons_r.
Qed.

Lemma chars_rstrip_prefix s : chars (rstrip s) `prefix_of` chars s.
Proof.
  induction s as [|c r IH]; [done|]. cbn [rstrip].
  destruct (rstrip r) as [|d r'] eqn:E.
  - destruct (py_isspace c); cbn [chars].
    + apply prefix_nil.
    + apply prefix_cons, prefix_nil.
  - cbn [chars] in *. by apply prefix_cons.
Qed.

Lemma Forall_chars_strip (P : ascii -> Prop) s :
  Forall P (chars s) -> Forall P (chars (strip s)).
Proof.
  intros H. unfold strip.
  destruct (chars_lstrip_suffix (rstrip s)) as [k1 E1].
  destruct (chars_rstrip_prefix s) as [k2 E2].
  rewrite E2, E1 in H.
  apply Forall_app in H as [H _]. by apply Forall_app in H as [_ H].
Qed.

Lemma lstrip_idem s : lstrip (lstrip s) = lstrip s.
Proof.
  induction s as [|c r IH]; [done|]. cbn [lstrip].
  destruct (py_isspace c) eqn:E; [done|]. cbn [lstrip]. by rewrite E.
Qed.

Lemma rstrip_idem s : rstrip (rstrip s) = rstrip s.
Proof.
  induction s as [|c r IH]; [done|]. cbn [rstrip].
  destruct (rstrip r) as [|d r'] eqn:E.
  - destruct (py_isspace c) eqn:Ec; [done|]. cbn [rstrip]. by rewrite Ec.
  - cbn [rstrip] in *. rewrite IH. done.
Qed.

(** Stripping on the left keeps a text free of trailing white space. *)
Lemma rstrip_lstrip s : rstrip s = s -> rstrip (lstrip s) = lstrip s.
Proof.
  induction s as [|c r IH]; [done|]. intros H. cbn [lstrip].
  destruct (py_isspace c) eqn:Ec; [|exact H].
  apply IH. cbn [rstrip] in H. rewrite Ec in H.
  destruct (rstrip r) as [|d r'] eqn:E; [done|]. by injection H.
Qed.

Lemma strip_idem s : strip (strip s) = strip s.
Proof.
  unfold strip. rewrite (rstrip_lstrip (rstrip s)) by apply rstrip_idem.
  apply lstrip_idem.
Qed.

Lemma leading_space_lstrip s : leading_space (lstrip s) = false.
Proof.
  induction s as [|c r IH]; [done|]. cbn [lstrip].
  destruct (py_isspace c) eqn:E; [done|]. unfold leading_space. cbn. done.
Qed.

Lemma last_chars_cons (c d : ascii) (l : list ascii) :
  last (c :: d :: l) = last (d :: l).
Proof. done. Qed.

Lemma trailing_space_rstrip s : trailing_space (rstrip s) = false.
Proof.
  unfold trailing_space, last_char.
  induction s as [|c r IH]; [done|]. cbn [rstrip].
  destruct (rstrip r) as [|d r'] eqn:E.
  - destruct (py_isspace c) eqn:Ec; [done|]. cbn. done.
  - cbn [chars] in *. by rewrite last_chars_cons.
Qed.

Lemma trailing_space_lstrip s :
  trailing_space s = false -> trailing_space (lstrip s) = false.
Proof.
  unfold trailing_space, last_char.
  induction s as [|c r IH]; [done|]. cbn [lstrip]. intros H.
  destruct (py_isspace c) eqn:Ec; [|done].
  apply IH. destruct r as [|d r']; [done|]. exact H.
Qed.

Lemma is_invalid_char_false c : is_invalid_char c = false <-> c ∉ invalid_chars.
Proof. unfold is_invalid_char. by rewrite bool_decide_eq_false. Qed.

(** C10. [sanitize_filename] is idempotent, its result holds none of
    the characters backslash, slash, star, question mark, colon, double
    quote, less-than, greater-than and bar, and it neither starts nor
    ends with a white-space character. *)
Theorem sanitize_filename_idempotent_clean (s : string) :
  sanitize_filename (sanitize_filename s) = sanitize_filename s
  /\ Forall (fun c => c ∉ invalid_chars) (chars (sanitize_filename s))
  /\ leading_space (sanitize_filename s) = false
  /\ trailing_space (sanitize_filename s) = false.
Proof.
  assert (Hclean : Forall (fun c => is_invalid_char c = false)
                          (chars (sanitize_filename s))).
  { apply Forall_chars_strip, remove_chars_Forall. }
  split; [|split; [|split]].
  - unfold sanitize_filename at 1.
    rewrite (remove_chars_clean _ _ Hclean).
    unfold sanitize_filename. apply strip_idem.
  - eapply Forall_impl; [exact Hclean|]. intros c. apply is_invalid_char_false.
  - apply leading_space_lstrip.
  - apply trailing_space_lstrip, trailing_space_rstrip.
Qed.

(** ** The retrying fetch *)

Lemma requests_app t evs f s :
  requests (mkWorld (t ++ evs) f s)
  = (requests (mkWorld t f s) + length (List.filter is_get evs))%nat.
Proof. unfold requests. cbn. by rewrite List.filter_app, length_app. Qed.

Lemma requests_eta w : requests (mkWorld (trace w) (files w) (site w)) = requests w.
Proof. done. Qed.

(** One turn of the loop, by the answer of the site. *)
Lemma retry_loop_step url m a n w :
  retry_loop url m a (S n) w =
  let w1 := mkWorld (trace w ++ [Sleep REQUEST_DELAY]) (files w) (site w) in
  let w2 := mkWorld (trace w1 ++ [Get url]) (files w) (site w) in
  let answer := site w (requests w) url in
  if attempt_succeeds answer then
    match answer with
    | inr r => (Return (Some r), w2)
    | inl e => (Raise e, w2)
    end
  else if attempt_fails answer then
    if a <? m then
      retry_loop url m (a + 1) n
        (mkWorld (trace w2 ++ [Log WARNING url; Sleep RETRY_DELAY]) (files w) (site w))
    else (Raise (attempt_error answer),
          mkWorld (trace w2 ++ [Log ERROR url]) (files w) (site w))
  else (Raise (attempt_error answer), w2).
Proof.
  cbn [retry_loop]. unfold try_except, mbind, M_bind, mret, M_ret, emit, session_get, raise_for_status, raise.
  cbn -[retry_loop].
  assert (E : length (List.filter is_get (trace w ++ [Sleep REQUEST_DELAY]))
              = requests w).
  { unfold requests. rewrite List.filter_app. cbn. by rewrite app_nil_r. }
  rewrite E.
  destruct (site w (requests w) url) as [e|r]; cbn -[retry_loop].
  - destruct (is_request_exception e); [|done].
    destruct (a <? m); [|done].
    cbn [trace files site]. by rewrite <- !app_assoc.
  - unfold error_status.
    destruct ((400 <=? status_code r) && (status_code r <? 600)); cbn -[retry_loop]; [|done].
    destruct (a <? m); [|done].
    cbn [trace files site]. by rewrite <- !app_assoc.
Qed.

Lemma attempt_fails_not_succeeds answer :
  attempt_fails answer = true -> attempt_succeeds answer = false.
Proof. destruct answer as [e|r]; cbn; [done|]. by intros ->. Qed.

(** What every run of the loop leaves alone, and what its normal
    results look like. *)
Lemma retry_loop_frame url m n : forall a w,
  files (retry_loop url m a n w).2 = files w
  /\ site (retry_loop url m a n w).2 = site w
  /\ (exists evs, trace (retry_loop url m a n w).2 = trace w ++ evs
                  /\ omap written_record evs = [])
  /\ (forall r, (retry_loop url m a n w).1 = Return (Some r) ->
                error_status r = false).
Proof.
  induction n as [|n IH]; intros a w.
  - cbn. split_and!; [done|done| |done]. exists []. by rewrite app_nil_r.
  - rewrite retry_loop_step. cbn zeta.
    destruct (attempt_succeeds (site w (requests w) url)) eqn:Hs.
    { destruct (site w (requests w) url) as [e|r]; [done|]. cbn in Hs.
      cbn. split_and!; [done|done| |].
      - exists [Sleep REQUEST_DELAY; Get url]. by rewrite <- app_assoc.
      - intros r' [= <-]. by apply negb_true_iff in Hs. }
    destruct (attempt_fails (site w (requests w) url)).
    2:{ cbn. split_and!; [done|done| |done].
        exists [Sleep REQUEST_DELAY; Get url]. by rewrite <- app_assoc. }
    destruct (a <? m).
    + edestruct IH as (Hf & Hsite & (evs & Ht & Hw) & Hr).
      rewrite Hf, Hsite. split_and!; [done|done| |exact Hr].
      rewrite Ht. cbn [trace].
      exists ([Sleep REQUEST_DELAY; Get url; Log WARNING url; Sleep RETRY_DELAY] ++ evs).
      split; [by rewrite <- !app_assoc|]. exact Hw.
    + cbn. split_and!; [done|done| |done].
      exists [Sleep REQUEST_DELAY; Get url; Log ERROR url]. by rewrite <- !app_assoc.
Qed.

(** Sustained failure: [n] turns are left, the last of them at index
    [m], and the site fails each of the next [n] requests. *)
Lemma retry_loop_all_fail url m n : forall a w,
  (0 < n)%nat ->
  a + Z.of_nat n = m + 1 ->
  (forall k, (k < n)%nat ->
             attempt_fails (site w (requests w + k)%nat url) = true) ->
  (retry_loop url m a n w).1
    = Raise (attempt_error (site w (requests w + (n - 1))%nat url))
  /\ requests (retry_loop url m a n w).2 = (requests w + n)%nat.
Proof.
  induction n as [|n IH]; intros a w Hn Ha Hfail; [lia|].
  rewrite retry_loop_step. cbn zeta.
  pose proof (Hfail 0%nat ltac:(lia)) as H0. rewrite Nat.add_0_r in H0.
  rewrite (attempt_fails_not_succeeds _ H0), H0.
  destruct (a <? m) eqn:Hlt.
  - apply Z.ltb_lt in Hlt.
    set (w3 := mkWorld _ _ _).
    assert (Hreq : requests w3 = S (requests w)).
    { unfold w3. cbn [trace files site].
      rewrite <- !app_assoc, requests_app, requests_eta. cbn. lia. }
    destruct (IH (a + 1) w3) as [E1 E2]; [lia|lia| |].
    + intros k Hk. rewrite Hreq. unfold w3. cbn [site].
      replace (S (requests w) + k)%nat with (requests w + S k)%nat by lia.
      apply Hfail. lia.
    + rewrite E1, E2, Hreq. unfold w3. cbn [site]. split; [|lia].
      do 3 f_equal. lia.
  - apply Z.ltb_ge in Hlt. assert (n = 0%nat) as -> by lia. cbn [fst snd].
    split; [by rewrite Nat.add_0_r|].
    cbn [trace files site].
      rewrite <- !app_assoc, requests_app, requests_eta. cbn. lia.
Qed.

(** First-attempt success. *)
Lemma retry_loop_first_success url m a n w r :
  site w (requests w) url = inr r ->
  error_status r = false ->
  (retry_loop url m a (S n) w).1 = Return (Some r)
  /\ requests (retry_loop url m a (S n) w).2 = S (requests w).
Proof.
  intros Hsite Hok. rewrite retry_loop_step. cbn zeta.
  rewrite Hsite. cbn [attempt_succeeds]. rewrite Hok. cbn [negb fst snd].
  split; [done|]. cbn [trace files site].
  rewrite <- app_assoc, requests_app, requests_eta. cbn. lia.
Qed.

(** A negative bound leaves the range empty: nothing is sent and the
    function returns [None]. *)
Lemma make_request_negative_bound url max_retries w :
  max_retries < 0 ->
  make_request_with_retry url max_retries w = (Return None, w).
Proof.
  intros H. unfold make_request_with_retry.
  replace (Z.to_nat (max_retries + 1)) with 0%nat by lia. done.
Qed.

(** C2. With [max_retries] a count (not negative): when each of the
    [max_retries + 1] requests the call can send fails, the call sends
    exactly that many and ends in the last failure's exception; when
    its first request succeeds, the call sends exactly one and returns
    that response. *)
Theorem make_request_with_retry_attempts (url : string) (max_retries : Z)
    (Hcount : 0 <= max_retries) :
  (forall w,
     (forall k, (k <= Z.to_nat max_retries)%nat ->
                attempt_fails (site w (requests w + k)%nat url) = true) ->
     attempts_between w (make_request_with_retry url max_retries w).2
       = max_retries + 1
     /\ (make_request_with_retry url max_retries w).1
        = Raise (attempt_error
                   (site w (requests w + Z.to_nat max_retries)%nat url)))
  /\ (forall w r,
        site w (requests w) url = inr r ->
        attempt_succeeds (inr r) = true ->
        attempts_between w (make_request_with_retry url max_retries w).2 = 1
        /\ (make_request_with_retry url max_retries w).1 = Return (Some r)).
Proof.
  unfold make_request_with_retry, attempts_between. split.
  - intros w Hfail.
    destruct (retry_loop_all_fail url max_retries
                (Z.to_nat (max_retries + 1)) 0 w) as [E1 E2]; [lia|lia| |].
    { intros k Hk. apply Hfail. lia. }
    rewrite E1, E2. split; [lia|]. do 3 f_equal. lia.
  - intros w r Hsite Hok. cbn in Hok. apply negb_true_iff in Hok.
    replace (Z.to_nat (max_retries + 1)) with (S (Z.to_nat max_retries)) by lia.
    destruct (retry_loop_first_success url max_retries 0
                (Z.to_nat max_retries) w r Hsite Hok) as [E1 E2].
    rewrite E1, E2. split; [lia|done].
Qed.

(** ** Documents *)

(** Induction over a document, with the hypothesis on every child. *)
Lemma node_induction (P : node -> Prop) :
  (forall s, P (NText s)) ->
  (forall name cls at_ kids, Forall P kids -> P (NElem name cls at_ kids)) ->
  forall n, P n.
Proof.
  intros Htext Helem.
  fix IH 1. intros [s|name cls at_ kids]; [apply Htext|].
  apply Helem. induction kids as [|k kids IHk]; constructor; [apply IH|exact IHk].
Qed.




(** ** The listing scan *)

Section Listing.

Variable html_parser : string -> list node.

(** [process_page] by the outcome of its fetch: the filtered links of
    the page fetched, and nothing when the fetch gave up. *)
Lemma process_page_cases page w :
  let fetched := make_request_with_retry (page_url page) MAX_RETRIES w in
  process_page html_parser page w =
  match fetched.1 with
  | Return (Some r) =>
      (Return (game_links_of (soup_of (html_parser (body r)))), fetched.2)
  | Return None => (Return [], fetched.2)
  | Raise e =>
      (Return [],
       mkWorld (trace fetched.2 ++ [Log WARNING (str_of_int page)])
               (files fetched.2) (site fetched.2))
  end.
Proof.
  cbn zeta. unfold process_page, try_except, mbind, M_bind.
  pose proof (retry_loop_frame (page_url page) MAX_RETRIES
                (Z.to_nat (MAX_RETRIES + 1)) 0 w) as (_ & _ & _ & Hok).
  unfold make_request_with_retry in *.
  destruct (retry_loop _ _ _ _ w) as [[[r|]|e] w']; cbn in *; try done.
  unfold error_status in Hok. by rewrite (Hok r eq_refl).
Qed.

Lemma process_page_returns page w :
  exists links, (process_page html_parser page w).1 = Return links.
Proof.
  rewrite process_page_cases. cbn zeta.
  destruct (make_request_with_retry _ _ w) as [[[r|]|e] w']; cbn; eauto.
Qed.







Example echo_found_first_page : echo_found 1 = [shared_game_url].
Proof. by vm_compute. Qed.

Example keep_href_marker_alone : keep_href "https://game-2u.com/20/ps4" = true.
Proof. reflexivity. Qed.


End Listing.

(** ** The attribute table *)

Lemma table_row_pair d row :
  table_row d row =
  match attribute_pair row with
  | Some kv => <[kv.1 := kv.2]> d
  | None => d
  end.
Proof.
  unfold table_row, attribute_pair.
  by destruct (find_all "td" row) as [|c0 [|c1 cells]].
Qed.

Lemma last_value_snoc k pairs kv :
  last_value k (pairs ++ [kv]) =
  if decide (kv.1 = k) then Some kv.2 else last_value k pairs.
Proof.
  unfold last_value. rewrite filter_app, filter_cons, filter_nil.
  destruct (decide (kv.1 = k)); [by rewrite last_snoc|by rewrite app_nil_r].
Qed.

(** Folding the rows into the dictionary leaves, under each key, the
    value of the last row that carries the key. *)
Lemma fold_table_row_lookup rows d k :
  fold_left table_row rows d !! k =
  match last_value k (omap attribute_pair rows) with
  | Some v => Some v
  | None => d !! k
  end.
Proof.
  induction rows as [|row rows IH] using rev_ind; [done|].
  rewrite fold_left_app, omap_app. cbn [fold_left].
  rewrite table_row_pair.
  assert (Hrow : omap attribute_pair [row]
                 = match attribute_pair row with Some kv => [kv] | None => [] end).
  { cbn. by destruct (attribute_pair row). }
  rewrite Hrow. clear Hrow.
  destruct (attribute_pair row) as [kv|].
  - rewrite last_value_snoc. destruct (decide (kv.1 = k)) as [<-|Hne].
    + by rewrite lookup_insert_eq.
    + by rewrite lookup_insert_ne, IH.
  - by rewrite app_nil_r.
Qed.

Lemma table_data_of_lookup soup k :
  table_data_of soup !! k = last_value k (attribute_rows soup).
Proof.
  unfold table_data_of, attribute_rows.
  destruct (info_tables soup) as [|first tables]; [done|].
  rewrite fold_table_row_lookup, lookup_empty.
  by destruct (last_value _ _).
Qed.

(** The fragments of a cell are trimmed one by one before they are
    joined, so the blank between two of them is lost. *)
Example attribute_pair_fragments :
  attribute_pair split_key_row = Some ("GameVersion", "1.05")
  /\ spec_attribute_pair split_key_row = Some ("Game Version", "1.05").
Proof. by vm_compute. Qed.

(** C4, as the code has it. The attribute mapping comes from the rows
    of the first table with at least two cells: the key is the first
    cell's text fragments, each trimmed, joined, with every colon
    removed (not only a trailing one); the value is the second cell's
    text fragments, each trimmed, joined; the last row with a key wins.
    Version, language and firmware in the record are the lookups of
    [Game Version], [Language] and [Required firmware], each [Unknown]
    when no row carries the key. *)
Theorem table_data_last_row_wins (url : string) (soup : node) :
  (forall k, dict_get (table_data_of soup) k
             = default "Unknown" (last_value k (attribute_rows soup)))
  /\ extract url soup =
     match section_links_of soup with
     | Raise e => Raise e
     | Return sl =>
         Return (filepath_of (game_name_of soup),
                 join nl (record_lines url (game_name_of soup)
                    (default "Unknown" (last_value "Game Version" (attribute_rows soup)))
                    (default "Unknown" (last_value "Language" (attribute_rows soup)))
                    (default "Unknown" (last_value "Required firmware" (attribute_rows soup)))
                    (size_matches_of soup) sl))
     end.
Proof.
  split.
  - intros k. unfold dict_get. by rewrite table_data_of_lookup.
  - unfold extract, dict_get. by rewrite !table_data_of_lookup.
Qed.

(** C4, as the specification words it, fails on [colon_page]: stripping
    a trailing colon leaves the key [Required: firmware] and the
    firmware [Unknown], whereas the code removes the inner colon and
    finds firmware [5.05]. *)
Lemma table_data_trailing_colon_counterexample :
  dict_get (table_data_of colon_page) "Required firmware" = "5.05"
  /\ spec_lookup colon_page "Required firmware" = "Unknown"
  /\ dict_get (table_data_of colon_page) "Required firmware"
     <> spec_lookup colon_page "Required firmware".
Proof. by vm_compute. Qed.

(** ** Size tokens *)

Lemma app_cons c s t : String c s +:+ t = String c (s +:+ t).
Proof. done. Qed.

Lemma app_nil_left s : EmptyString +:+ s = s.
Proof. done. Qed.

Lemma app_assoc_str s t u : (s +:+ t) +:+ u = s +:+ t +:+ u.
Proof. induction s as [|c s IH]; [done|]. by rewrite !app_cons, IH. Qed.

Lemma length_app_str s t :
  String.length (s +:+ t) = (String.length s + String.length t)%nat.
Proof. induction s as [|c s IH]; [done|]. rewrite app_cons. cbn. by rewrite IH. Qed.

Lemma chars_app s t : chars (s +:+ t) = chars s ++ chars t.
Proof. induction s as [|c s IH]; [done|]. rewrite app_cons. cbn. by rewrite IH. Qed.

Module ReFacts.
Import Re.

Lemma digits_upto_spec hi : forall s m rest,
  In (m, rest) (digits_upto hi s) <-> digit_run 0 hi m /\ s = m +:+ rest.
Proof.
  unfold digit_run.
  induction hi as [|hi IH]; intros s m rest.
  - assert (E : digits_upto 0 s = [(EmptyString, s)]) by (by destruct s). rewrite E.
    cbn. split.
    + intros [[= <- <-]|[]]. cbn. split_and!; [lia|lia|constructor|done].
    + intros [[[_ Hl] _] ->]. destruct m; [by left|cbn in Hl; lia].
  - destruct s as [|c r].
    { cbn. split.
      - intros [[= <- <-]|[]]. cbn. split_and!; [lia|lia|constructor|done].
      - intros [_ H]. destruct m; [|discriminate H].
        rewrite app_nil_left in H. subst. by left. }
    cbn [digits_upto]. destruct (py_isdigit c) eqn:Ec.
    + rewrite in_app_iff, in_map_iff. split.
      * intros [([m' rest'] & [= <- <-] & Hin)|[[= <- <-]|[]]].
        -- apply IH in Hin as [[[_ Hl] Hd] ->]. cbn.
           split_and!; [lia|lia|by constructor|done].
        -- cbn. split_and!; [lia|lia|constructor|done].
      * intros [[[_ Hl] Hd] E]. destruct m as [|c' m'].
        -- right. left. by rewrite E.
        -- left. rewrite app_cons in E. injection E as <- ->.
           exists (m', rest). split; [done|]. apply IH.
           cbn in Hl, Hd. apply Forall_cons in Hd as [_ Hd].
           split_and!; [lia|lia|done|done].
    + cbn. split.
      * intros [[= <- <-]|[]]. cbn. split_and!; [lia|lia|constructor|done].
      * intros [[_ Hd] E]. destruct m as [|c' m']; [left; by rewrite E|].
        rewrite app_cons in E. injection E as <- ->. cbn in Hd.
        apply Forall_cons in Hd as [Hd _]. congruence.
Qed.

Lemma digits_accepts lo hi : accepts (digits lo hi) (digit_run lo hi).
Proof.
  intros s m rest. unfold digits.
  rewrite <- list_elem_of_In, list_elem_of_filter, list_elem_of_In, digits_upto_spec.
  unfold digit_run. cbn. intuition lia.
Qed.

Lemma startswith_app p s : startswith p (p +:+ s) = true.
Proof.
  induction p as [|c p IH]; [done|]. rewrite app_cons. cbn.
  by rewrite Ascii.eqb_refl, IH.
Qed.

Lemma startswith_split p s :
  startswith p s = true -> s = p +:+ drop_chars (String.length p) s.
Proof.
  revert s. induction p as [|c p IH]; intros s H; [done|].
  destruct s as [|d s]; [done|]. cbn in H.
  apply andb_true_iff in H as [Hc H]. apply Ascii.eqb_eq in Hc as ->.
  rewrite app_cons. cbn. f_equal. by apply IH.
Qed.

Lemma lit_accepts p : accepts (lit p) (fun m => m = p).
Proof.
  intros s m rest. unfold lit. destruct (startswith p s) eqn:E.
  - cbn. split.
    + intros [[= <- <-]|[]]. split; [done|]. by apply startswith_split.
    + intros [-> Hs]. left. f_equal.
      apply startswith_split in E. rewrite E in Hs at 1.
      by apply String.app_inj in Hs.
  - cbn. split; [done|]. intros [-> ->]. by rewrite startswith_app in E.
Qed.

Lemma opt_space_accepts : accepts opt_space optional_space.
Proof.
  intros s m rest. unfold opt_space, optional_space.
  destruct s as [|c r].
  - cbn. split.
    + intros [[= <- <-]|[]]. split; [by left|done].
    + intros [[->|(c & -> & _)] E]; [|done]. left. by rewrite E.
  - destruct (py_isspace c) eqn:Ec; cbn; split.
    + intros [[= <- <-]|[[= <- <-]|[]]]; split; eauto.
    + intros [[->|(c' & -> & _)] E].
      * right. left. by rewrite E.
      * left. rewrite app_cons in E. by injection E as -> ->.
    + intros [[= <- <-]|[]]. split; [by left|done].
    + intros [[->|(c' & -> & Hc)] E]; [left; by rewrite E|].
      rewrite app_cons in E. injection E as -> _. congruence.
Qed.

Lemma seq_accepts p q L1 L2 :
  accepts p L1 -> accepts q L2 ->
  accepts (seq p q) (fun m => exists m1 m2, m = m1 +:+ m2 /\ L1 m1 /\ L2 m2).
Proof.
  intros Hp Hq s m rest. unfold seq. rewrite in_flat_map. split.
  - intros ([m1 r1] & H1 & H2). apply in_map_iff in H2 as ([m2 r2] & [= <- <-] & H2).
    cbn in *. apply Hp in H1 as [H1 ->]. apply Hq in H2 as [H2 ->].
    split; [by exists m1, m2|]. by rewrite app_assoc_str.
  - intros [(m1 & m2 & -> & H1 & H2) ->]. rewrite app_assoc_str.
    exists (m1, m2 +:+ rest). split; [by apply Hp|].
    apply in_map_iff. exists (m2, rest). split; [done|]. by apply Hq.
Qed.

Lemma size_pattern_accepts : accepts size_pattern is_size_token.
Proof.
  intros s m rest. unfold size_pattern.
  etrans;
    [apply (seq_accepts _ _ _ _ (digits_accepts 1 3)
              (seq_accepts _ _ _ _ (lit_accepts ".")
                 (seq_accepts _ _ _ _ (digits_accepts 1 2)
                    (seq_accepts _ _ _ _ opt_space_accepts (lit_accepts "GB")))))|].
  cbn beta. unfold is_size_token. split.
  - intros [(d1 & ? & -> & Hd1 & ? & ? & -> & -> & d2 & ? & -> & Hd2
             & sp & ? & -> & Hsp & ->) ->].
    split; [|done]. by exists d1, d2, sp.
  - intros [(d1 & d2 & sp & -> & Hd1 & Hd2 & Hsp) ->]. split; [|done].
    exists d1, ("." +:+ d2 +:+ sp +:+ "GB"). split_and!; [done|done|].
    exists ".", (d2 +:+ sp +:+ "GB"). split_and!; [done|done|].
    exists d2, (sp +:+ "GB"). split_and!; [done|done|].
    by exists sp, "GB".
Qed.

Lemma match_at_Some s m :
  match_at size_pattern s = Some m ->
  is_size_token m /\ exists rest, s = m +:+ rest.
Proof.
  unfold match_at. destruct (size_pattern s) as [|[m' rest] l] eqn:E; [done|].
  intros [= <-]. assert (H : In (m', rest) (size_pattern s)) by (rewrite E; by left).
  apply size_pattern_accepts in H as [H ->]. eauto.
Qed.

Lemma match_at_None s :
  match_at size_pattern s = None ->
  forall m t, is_size_token m -> s <> m +:+ t.
Proof.
  unfold match_at. destruct (size_pattern s) as [|mr l] eqn:E; [|done].
  intros _ m t Hm Hs.
  assert (H : In (m, t) (size_pattern s)) by (by apply size_pattern_accepts).
  by rewrite E in H.
Qed.

Lemma size_token_nonempty m : is_size_token m -> exists c m', m = String c m'.
Proof.
  intros (d1 & d2 & sp & -> & [[Hl _] _] & _). destruct d1 as [|c d1]; [cbn in Hl; lia|].
  rewrite app_cons. eauto.
Qed.

(** The scan passes over a match in as many steps as it is long. *)
Lemma findall_from_skip p pre rest :
  findall_from p (String.length pre) (pre +:+ rest) = findall_from p 0 rest.
Proof.
  induction pre as [|c pre IH]; [by destruct rest|].
  rewrite app_cons. cbn. exact IH.
Qed.

Lemma findall_scanned_bounded n : forall s,
  (String.length s <= n)%nat -> scanned s (findall size_pattern s).
Proof.
  unfold findall.
  induction n as [|n IH]; intros [|c r] Hn;
    [constructor|cbn in Hn; lia|constructor|].
  cbn [findall_from]. destruct (match_at size_pattern (String c r)) as [m|] eqn:E.
  - apply match_at_Some in E as [Hm [rest Hs]].
    destruct (size_token_nonempty m Hm) as (c' & m' & ->).
    rewrite app_cons in Hs. injection Hs as <- ->.
    replace (String.length (String c m') - 1)%nat with (String.length m')
      by (cbn; lia).
    rewrite findall_from_skip.
    rewrite <- app_cons. constructor; [done|]. apply IH.
    cbn in Hn. rewrite length_app_str in Hn. lia.
  - constructor; [by apply match_at_None|]. apply IH. cbn in Hn. lia.
Qed.

Lemma findall_scanned s : scanned s (findall size_pattern s).
Proof. by apply (findall_scanned_bounded (String.length s)). Qed.

(** Every string of a scan is a size token found in the text. *)
Lemma scanned_tokens s ms :
  scanned s ms ->
  Forall (fun m => is_size_token m /\ exists pre post, s = pre +:+ m +:+ post) ms.
Proof.
  induction 1 as [|m rest ms Hm _ IH|c rest ms _ _ IH].
  - constructor.
  - constructor; [split; [done|by exists EmptyString, rest]|].
    eapply Forall_impl; [exact IH|]. intros m' [? (pre & post & ->)].
    split; [done|]. exists (m +:+ pre), post. by rewrite app_assoc_str.
  - eapply Forall_impl; [exact IH|]. intros m' [? (pre & post & ->)].
    split; [done|]. by exists (String c pre), post.
Qed.

(** Nothing matches where no digit stands. *)
Lemma findall_digit_free s :
  digit_free s -> findall size_pattern s = [].
Proof.
  unfold findall, digit_free.
  induction s as [|c r IH]; [done|]. cbn [chars]. intros H.
  apply Forall_cons in H as [Hc H]. cbn [findall_from].
  assert (E : match_at size_pattern (String c r) = None).
  { unfold match_at, size_pattern, seq, digits. cbn [digits_upto].
    rewrite Hc. by rewrite filter_cons, decide_False, filter_nil by (cbn; lia). }
  rewrite E. by apply IH.
Qed.

Lemma findall_digit_free_prefix pre s :
  digit_free pre ->
  findall size_pattern (pre +:+ s) = findall size_pattern s.
Proof.
  unfold findall, digit_free.
  induction pre as [|c r IH]; [done|]. cbn [chars]. intros H.
  apply Forall_cons in H as [Hc H]. rewrite app_cons. cbn [findall_from].
  assert (E : match_at size_pattern (String c (r +:+ s)) = None).
  { unfold match_at, size_pattern, seq, digits. cbn [digits_upto].
    rewrite Hc. by rewrite filter_cons, decide_False, filter_nil by (cbn; lia). }
  rewrite E. by apply IH.
Qed.

(** The scan is leftmost and does not overlap: of four digits before
    the point the last three are taken; three digits after the point
    match nowhere; a tab serves as the white space, two blanks do not. *)
Example findall_edges :
  findall size_pattern "1234.56GB" = ["234.56GB"]
  /\ findall size_pattern "12.345GB" = []
  /\ findall size_pattern ("1.5" +:+ String "009" "GB") = ["1.5" +:+ String "009" "GB"]
  /\ findall size_pattern "1.5  GB and 2.5 gb" = [].
Proof. by vm_compute. Qed.

Lemma findall_sizes_sentence post :
  findall size_pattern (sizes_sentence +:+ post)
  = "12.34 GB" :: "0.56 GB" :: findall size_pattern post.
Proof. vm_compute. reflexivity. Qed.

Lemma space_not_digit c : py_isspace c = true -> py_isdigit c = false.
Proof. by destruct c as [[] [] [] [] [] [] [] []]. Qed.

(** A run of digits that ends before a character that is no digit is
    fixed by the text it heads. *)
Lemma digit_run_unique d : forall d' c c' r r',
  Forall (fun x => py_isdigit x = true) (chars d) ->
  Forall (fun x => py_isdigit x = true) (chars d') ->
  py_isdigit c = false -> py_isdigit c' = false ->
  d +:+ String c r = d' +:+ String c' r' ->
  d = d' /\ String c r = String c' r'.
Proof.
  induction d as [|x d IH]; intros [|x' d'] c c' r r' Hd Hd' Hc Hc' E.
  - done.
  - rewrite app_cons in E. injection E as -> _. cbn in Hd'.
    apply Forall_cons in Hd' as [Hx _]. congruence.
  - rewrite app_cons in E. injection E as -> _. cbn in Hd.
    apply Forall_cons in Hd as [Hx _]. congruence.
  - rewrite !app_cons in E. injection E as -> E. cbn in Hd, Hd'.
    apply Forall_cons in Hd as [_ Hd]. apply Forall_cons in Hd' as [_ Hd'].
    destruct (IH d' c c' r r' Hd Hd' Hc Hc' E) as [-> ?]. done.
Qed.

Lemma optional_space_head sp t :
  optional_space sp ->
  exists c r, sp +:+ "GB" +:+ t = String c r /\ py_isdigit c = false.
Proof.
  intros [->|(c & -> & Hc)].
  - by exists "G"%char, ("B" +:+ t).
  - exists c, ("GB" +:+ t). split; [done|]. by apply space_not_digit.
Qed.

Lemma optional_space_unique sp sp' t t' :
  optional_space sp -> optional_space sp' ->
  sp +:+ "GB" +:+ t = sp' +:+ "GB" +:+ t' -> sp = sp'.
Proof.
  intros [->|(c & -> & Hc)] [->|(c' & -> & Hc')] E; [done| | |].
  - rewrite app_cons in E. injection E as <- _. by vm_compute in Hc'.
  - rewrite app_cons in E. injection E as -> _. by vm_compute in Hc.
  - rewrite !app_cons in E. by injection E as -> _.
Qed.

(** At most one size token heads a text. *)
Lemma size_token_unique m m' t t' :
  is_size_token m -> is_size_token m' -> m +:+ t = m' +:+ t' -> m = m'.
Proof.
  intros (d1 & d2 & sp & -> & [_ H1] & [_ H2] & Hsp)
         (d1' & d2' & sp' & -> & [_ H1'] & [_ H2'] & Hsp') E.
  rewrite !app_assoc_str in E.
  destruct (digit_run_unique d1 d1' "." "." _ _ H1 H1' eq_refl eq_refl E)
    as [-> E1].
  injection E1 as E1.
  destruct (optional_space_head sp t Hsp) as (c & r & Hc & Hcd).
  destruct (optional_space_head sp' t' Hsp') as (c' & r' & Hc' & Hcd').
  rewrite Hc, Hc' in E1.
  destruct (digit_run_unique d2 d2' c c' r r' H2 H2' Hcd Hcd' E1) as [-> E2].
  rewrite <- Hc, <- Hc' in E2.
  by rewrite (optional_space_unique sp sp' t t' Hsp Hsp' E2).
Qed.

(** The scan of a text is unique: it is what [findall] returns. *)
Lemma scanned_findall s ms : scanned s ms -> ms = findall size_pattern s.
Proof.
  unfold findall.
  induction 1 as [|m rest ms Hm _ IH|c rest ms Hnone _ IH]; [done| |].
  - destruct (size_token_nonempty m Hm) as (c & m0 & ->).
    rewrite app_cons. cbn [findall_from].
    destruct (match_at size_pattern (String c (m0 +:+ rest))) as [m'|] eqn:E.
    + apply match_at_Some in E as [Hm' [rest' E]].
      rewrite <- app_cons in E.
      rewrite <- (size_token_unique _ _ _ _ Hm Hm' E).
      replace (String.length (String c m0) - 1)%nat with (String.length m0)
        by (cbn; lia).
      by rewrite findall_from_skip, IH.
    + destruct (match_at_None _ E (String c m0) rest Hm). by rewrite app_cons.
  - cbn [findall_from].
    destruct (match_at size_pattern (String c rest)) as [m'|] eqn:E; [|done].
    apply match_at_Some in E as [Hm' [rest' E]]. by destruct (Hnone m' rest' Hm').
Qed.

End ReFacts.

Lemma digit_free_no_token s :
  digit_free s ->
  forall pre m post, s = pre +:+ m +:+ post -> ~ is_size_token m.
Proof.
  intros Hs pre m post -> Hm.
  destruct Hm as (d1 & d2 & sp & -> & [[Hl _] Hd] & _).
  destruct d1 as [|c d1]; [cbn in Hl; lia|].
  cbn in Hd. apply Forall_cons in Hd as [Hc _].
  unfold digit_free in Hs. rewrite chars_app, !app_cons in Hs.
  apply Forall_app in Hs as [_ Hs]. cbn in Hs.
  apply Forall_cons in Hs as [Hs _]. congruence.
Qed.

(** C7. The sizes are found by a left-to-right scan of the page's whole
    text, and are all that such a scan finds: they are, in order of
    appearance, the tokens of one to three digits, a point, one or two
    digits, at most one white-space character (a blank, a tab or a
    line break alike) and [GB] in capitals. The sentence of the example, with no digit around it,
    gives [12.34 GB] and [0.56 GB] in this order; a text in which no
    token occurs gives no size, and the sizes section of the record is
    then the one line [- Unknown]. *)
Theorem size_matches_in_order (soup : node) :
  scanned (get_text soup) (size_matches_of soup)
  /\ (forall ms, scanned (get_text soup) ms -> ms = size_matches_of soup)
  /\ (forall pre post,
        digit_free pre -> digit_free post ->
        get_text soup = pre +:+ sizes_sentence +:+ post ->
        size_matches_of soup = ["12.34 GB"; "0.56 GB"])
  /\ ((forall pre m post,
         get_text soup = pre +:+ m +:+ post -> ~ is_size_token m) ->
      size_matches_of soup = []
      /\ size_lines (size_matches_of soup) = ["- Unknown"]).
Proof.
  unfold size_matches_of. split_and!.
  - apply ReFacts.findall_scanned.
  - apply ReFacts.scanned_findall.
  - intros pre post Hpre Hpost ->.
    rewrite ReFacts.findall_digit_free_prefix by done.
    rewrite ReFacts.findall_sizes_sentence.
    by rewrite ReFacts.findall_digit_free.
  - intros Hnone.
    pose proof (ReFacts.scanned_tokens _ _ (ReFacts.findall_scanned (get_text soup))) as H.
    destruct (Re.findall Re.size_pattern (get_text soup)) as [|m ms]; [done|].
    apply Forall_cons in H as [[Hm (pre & post & E)] _].
    by destruct (Hnone pre m post E).
Qed.

Lemma size_matches_in_order_witness :
  size_matches_of (soup_of [NText sizes_sentence]) = ["12.34 GB"; "0.56 GB"]
  /\ size_lines (size_matches_of bare_page) = ["- Unknown"].
Proof.
  split.
  - apply (proj1 (proj2 (proj2 (size_matches_in_order
                                    (soup_of [NText sizes_sentence]))))
             EmptyString EmptyString).
    + constructor.
    + constructor.
    + reflexivity.
  - apply (proj2 (proj2 (proj2 (size_matches_in_order bare_page)))).
    apply digit_free_no_token. unfold digit_free.
    repeat (constructor; [reflexivity|]). constructor.
Defined.

(** ** Link rows *)

Lemma comprehension_format_link (anchors : list node) :
  Forall (fun a => is_Some (get_attr "href" a)) anchors ->
  comprehension format_link anchors = Return (map link_entry anchors).
Proof.
  induction 1 as [|a anchors [href Ha] _ IH]; [done|].
  cbn. unfold format_link at 1. unfold link_entry at 1.
  by rewrite Ha, IH.
Qed.

Lemma find_all_a_href_have_href cell :
  Forall (fun a => is_Some (get_attr "href" a)) (find_all_a_href cell).
Proof.
  apply Forall_forall. intros a Ha. unfold find_all_a_href in Ha.
  apply list_elem_of_filter in Ha as [Ha _].
  apply andb_true_iff in Ha as [_ Ha]. by apply bool_decide_eq_true in Ha.
Qed.

(** A row of at least four cells: the label of the first cell picks the
    category, and every link with an href in the fourth cell is
    appended to it. *)
Lemma link_row_four_cells sl row c0 c1 c2 c3 cells :
  find_all "td" row = c0 :: c1 :: c2 :: c3 :: cells ->
  link_row sl row =
  Return (match classify (lower (strip (get_text c0))) with
          | Some category => extend category (map link_entry (find_all_a_href c3)) sl
          | None => sl
          end).
Proof.
  intros E. unfold link_row, classify. rewrite E.
  rewrite (comprehension_format_link _ (find_all_a_href_have_href c3)).
  destruct (contains "base" _); [done|].
  destruct (contains "update" _ && _); [done|].
  by destruct (contains "fix" _).
Qed.

(** A torrent row: the first [a] tag of the first cell is entered, if
    it has an href; without one the row raises [KeyError]. *)
Lemma link_row_torrent sl row c0 c1 :
  find_all "td" row = [c0; c1] ->
  contains "torrent" (lower (get_text c0)) = true ->
  link_row sl row =
  match find "a" c0 with
  | None => Return sl
  | Some a =>
      if bool_decide (is_Some (get_attr "href" a))
      then Return (extend "Torrent" [link_entry a] sl)
      else Raise (KeyError "href")
  end.
Proof.
  intros E Ht. unfold link_row. rewrite E, Ht.
  destruct (find "a" c0) as [a|]; [|done].
  unfold format_link, link_entry.
  destruct (get_attr "href" a) as [href|] eqn:Ha.
  - by rewrite bool_decide_eq_true_2.
  - rewrite bool_decide_eq_false_2; [done|]. by intros [? ?].
Qed.

(** Rows of any other shape leave the links alone. *)
Lemma link_row_other sl row :
  (length (find_all "td" row) < 4)%nat ->
  (length (find_all "td" row) <> 2%nat
   \/ exists c0 c1, find_all "td" row = [c0; c1]
                    /\ contains "torrent" (lower (get_text c0)) = false) ->
  link_row sl row = Return sl.
Proof.
  intros Hlt Hsh. unfold link_row.
  destruct (find_all "td" row) as [|c0 [|c1 [|c2 [|c3 cells]]]] eqn:E;
    try done; [|cbn in Hlt; lia].
  destruct Hsh as [Hsh|(c0' & c1' & [= <- <-] & Ht)]; [done|]. by rewrite Ht.
Qed.

(** Appending to a category changes that category alone. *)
Lemma section_extend_same k links sl :
  k ∈ sl.*1 -> section k (extend k links sl) = section k sl ++ links.
Proof.
  unfold section, extend. induction sl as [|[k0 v0] sl IH]; intros Hk.
  - by apply elem_of_nil in Hk.
  - cbn [map fst snd]. destruct (decide (k0 = k)) as [->|Hne].
    + rewrite bool_decide_eq_true_2 by done.
      rewrite !filter_cons, !decide_True by done. done.
    + rewrite bool_decide_eq_false_2 by done.
      rewrite !filter_cons, !decide_False by (cbn; congruence). apply IH.
      cbn in Hk. apply elem_of_cons in Hk as [?|?]; [congruence|done].
Qed.

Lemma section_extend_other k k' links sl :
  k <> k' -> section k (extend k' links sl) = section k sl.
Proof.
  intros Hne. unfold section, extend. induction sl as [|[k0 v0] sl IH]; [done|].
  cbn [map fst snd]. destruct (decide (k0 = k')) as [->|Hne'].
  - rewrite bool_decide_eq_true_2 by done.
    rewrite !filter_cons, !decide_False by (cbn; congruence). exact IH.
  - rewrite bool_decide_eq_false_2 by done. rewrite !filter_cons.
    destruct (decide ((k0, v0).1 = k)); [done|exact IH].
Qed.

(** The chain is tried in order: a label with both [base] and [fix]
    is a base game, one with both [update] and [fix] is a fix. *)
Example classify_in_order :
  classify "base game" = Some "Base Game"
  /\ classify "base game fix" = Some "Base Game"
  /\ classify "update 1.05" = Some "Update"
  /\ classify "update 1.05 + fix" = Some "Fix"
  /\ classify "backport fix" = Some "Fix"
  /\ classify "dlc" = None.
Proof. by vm_compute. Qed.

Example base_game_row_links :
  link_row empty_sections base_game_row =
  Return [("Base Game", ["https://host/part1 - Part 1"; "https://host/part2 - Part 2"]);
          ("Update", []); ("Fix", []); ("Torrent", [])].
Proof. by vm_compute. Qed.

(** C8, where the code departs from it. A two-cell torrent row whose
    first [a] tag has no href contributes nothing: reading the href
    raises [KeyError], which ends the extraction of the whole page, and
    no record is written, although the fetch succeeded. The branch for
    rows of four cells asks for tags with an href and so cannot raise. *)
Theorem torrent_row_without_href_raises :
  link_row empty_sections torrent_row_without_href = Raise (KeyError "href")
  /\ extract "https://game-2u.com/2024/01/some-game-ps4/" torrent_page
     = Raise (KeyError "href")
  /\ let out := parse_and_save_game (fun _ => torrent_markup)
                  "https://game-2u.com/2024/01/some-game-ps4/"
                  (fresh_world echo_site) in
     out.1 = Return false /\ files out.2 = ∅
     /\ records_written (fresh_world echo_site) out.2 = [].
Proof. by vm_compute. Qed.

(** ** The detail task *)







Lemma records_written_trace w w' evs :
  trace w' = trace w ++ evs -> records_written w w' = omap written_record evs.
Proof.
  intros E. unfold records_written, new_events. by rewrite E, drop_app_length.
Qed.

Section Detail.

Variable html_parser : string -> list node.

(** [parse_and_save_game] by the outcome of its fetch and of the
    extraction. *)
Lemma parse_and_save_game_cases url w :
  let fetched := make_request_with_retry url MAX_RETRIES w in
  parse_and_save_game html_parser url w =
  match fetched.1 with
  | Return (Some r) =>
      let soup := soup_of (html_parser (body r)) in
      let seen := trace fetched.2 ++ [Log INFO (game_name_of soup)] in
      match extract url soup with
      | Return record =>
          (Return true,
           mkWorld (seen ++ [Wrote record.1 record.2])
                   (<[record.1 := record.2]> (files fetched.2)) (site fetched.2))
      | Raise e =>
          (Return false,
           mkWorld (seen ++ [Log ERROR url]) (files fetched.2) (site fetched.2))
      end
  | Return None => (Return false, fetched.2)
  | Raise e =>
      (Return false,
       mkWorld (trace fetched.2 ++ [Log ERROR url]) (files fetched.2) (site fetched.2))
  end.
Proof.
  cbn zeta. unfold parse_and_save_game, try_except, mbind, M_bind.
  pose proof (retry_loop_frame url MAX_RETRIES
                (Z.to_nat (MAX_RETRIES + 1)) 0 w) as (_ & _ & _ & Hok).
  unfold make_request_with_retry in *.
  destruct (retry_loop _ _ _ _ w) as [[[r|]|e] w']; cbn [fst snd] in *; try done.
  unfold truthy. unfold error_status in Hok. rewrite (Hok r eq_refl).
  cbn [negb]. unfold emit, lift, write_file, mret, M_ret. cbn [trace files site].
  by destruct (extract url _).
Qed.

(** What a run of the task leaves behind, in the three ways it can go. *)
Lemma parse_and_save_game_outcome url w :
  let out := parse_and_save_game html_parser url w in
  let fetched := (make_request_with_retry url MAX_RETRIES w).1 in
  match fetched with
  | Return (Some r) =>
      match extract url (soup_of (html_parser (body r))) with
      | Return record =>
          out.1 = Return true /\ records_written w out.2 = [record]
          /\ files out.2 = <[record.1 := record.2]> (files w)
      | Raise _ =>
          out.1 = Return false /\ records_written w out.2 = []
          /\ files out.2 = files w
      end
  | _ =>
      out.1 = Return false /\ records_written w out.2 = []
      /\ files out.2 = files w
  end.
Proof.
  cbn zeta. rewrite parse_and_save_game_cases. cbn zeta.
  pose proof (retry_loop_frame url MAX_RETRIES
                (Z.to_nat (MAX_RETRIES + 1)) 0 w) as (Hf & _ & (evs & Ht & Hw) & _).
  unfold make_request_with_retry in *.
  destruct (retry_loop _ _ _ _ w) as [[[r|]|e] w']; cbn [fst snd] in *.
  - destruct (extract url _) as [[path text]|e]; cbn [fst snd files]; rewrite Hf;
      (split_and!; [done| |done]);
      erewrite records_written_trace
        by (cbn [trace]; rewrite Ht, <- !app_assoc; reflexivity);
      by rewrite omap_app, Hw.
  - by rewrite (records_written_trace _ _ _ Ht).
  - cbn [files]. split_and!; [done| |done].
    erewrite records_written_trace
      by (cbn [trace]; rewrite Ht, <- !app_assoc; reflexivity).
    by rewrite omap_app, Hw.
Qed.


(** C9. What the task writes depends on the URL and the document
    alone: two runs that fetch the same body, after whatever retries,
    with whatever status and from whatever state of the world, return
    the same and write the same record, byte for byte; and when the
    second run follows the first, the results directory is left as the
    first run left it. *)
Theorem parse_and_save_game_deterministic (url : string) (w1 w2 : world)
    (r1 r2 : Response) :
  (make_request_with_retry url MAX_RETRIES w1).1 = Return (Some r1) ->
  (make_request_with_retry url MAX_RETRIES w2).1 = Return (Some r2) ->
  body r1 = body r2 ->
  let out1 := parse_and_save_game html_parser url w1 in
  let out2 := parse_and_save_game html_parser url w2 in
  out1.1 = out2.1
  /\ records_written w1 out1.2 = records_written w2 out2.2
  /\ (w2 = out1.2 -> files out2.2 = files out1.2).
Proof.
  intros H1 H2 Hb. cbn zeta.
  pose proof (parse_and_save_game_outcome url w1) as O1.
  pose proof (parse_and_save_game_outcome url w2) as O2.
  cbn zeta in O1, O2. rewrite H1 in O1. rewrite H2 in O2. rewrite Hb in O1.
  destruct (extract url _) as [record|e].
  - destruct O1 as (-> & -> & F1), O2 as (-> & -> & F2). split_and!; [done..|].
    intros ->. by rewrite F2, F1, insert_insert_eq.
  - destruct O1 as (-> & -> & F1), O2 as (-> & -> & F2). split_and!; [done..|].
    intros ->. by rewrite F2.
Qed.

End Detail.

(** C3, where the code departs from it. A page that was fetched at the
    first attempt and lacks only optional content (it has no title and
    no size) is dropped all the same when its table has a two-cell
    torrent row whose first [a] tag has no href: reading the href
    raises [KeyError], the handler of the task turns it into [False],
    and no record is written, although no fetch failed. The claim has
    such a page written with the sentinel defaults. *)
Theorem fetched_page_dropped_at_torrent_anchor :
  let w := fresh_world echo_site in
  let out := parse_and_save_game (fun _ => untitled_torrent_markup)
               shared_game_url w in
  (make_request_with_retry shared_game_url MAX_RETRIES w).1
    = Return (Some (mkResponse 200 shared_game_url))
  /\ attempts_between w out.2 = 1
  /\ find_entry_title untitled_torrent_page = None
  /\ size_matches_of untitled_torrent_page = []
  /\ extract shared_game_url untitled_torrent_page = Raise (KeyError "href")
  /\ out.1 = Return false
  /\ records_written w out.2 = []
  /\ files out.2 = ∅.
Proof. by vm_compute. Qed.

(** ** The orchestrator *)

Lemma collect_from (found : Z -> list string) (completed : list Z) :
  forall init : list string,
  fold_left (fun all page => all ++ found page) completed init
  = init ++ flat_map found completed.
Proof.
  induction completed as [|page completed IH]; intros init; cbn.
  - by rewrite app_nil_r.
  - by rewrite IH, <- app_assoc.
Qed.

Lemma collect_game_urls_flat_map found completed :
  collect_game_urls found completed = flat_map found completed.
Proof. apply collect_from. Qed.

Lemma occurrences_app u l k :
  occurrences u (l ++ k) = (occurrences u l + occurrences u k)%nat.
Proof. unfold occurrences. by rewrite filter_app, length_app. Qed.

Lemma occurrences_flat_map (u : string) (found : Z -> list string) (pages : list Z) :
  occurrences u (flat_map found pages)
  = sum_list (map (fun page => occurrences u (found page)) pages).
Proof.
  induction pages as [|page pages IH]; [done|]. cbn [flat_map map].
  by rewrite occurrences_app, IH.
Qed.

Lemma sum_list_map_perm (f : Z -> nat) (l k : list Z) :
  l ≡ₚ k -> sum_list (map f l) = sum_list (map f k).
Proof. induction 1; cbn; lia. Qed.

Lemma submitted_tasks_urls (urls : list string) : (submitted_tasks urls).*2 = urls.
Proof.
  unfold submitted_tasks. rewrite fmap_imap.
  rewrite (imap_ext _ (const id)) by done. rewrite imap_const. apply list_fmap_id.
Qed.

(** C1, as the code has it. The list handed to phase 2 is the results
    of the scans put end to end in the order the scans complete, with
    no deduplication: a URL occurs in it as often as it occurs in all
    scan results together, and phase 2 submits one task for each
    occurrence. *)
Theorem collected_urls_once_per_occurrence (found : Z -> list string)
    (completed : list Z) (saved : nat -> string -> bool) (u : string) :
  completed ≡ₚ page_range ->
  let run := main found completed saved in
  all_game_urls run = flat_map found completed
  /\ occurrences u (all_game_urls run)
     = sum_list (map (fun page => occurrences u (found page)) page_range)
  /\ (tasks run).*2 = all_game_urls run
  /\ occurrences u (tasks run).*2
     = sum_list (map (fun page => occurrences u (found page)) page_range).
Proof.
  intros Hperm. cbn zeta. unfold main. cbn [all_game_urls tasks].
  rewrite submitted_tasks_urls, collect_game_urls_flat_map, occurrences_flat_map.
  by rewrite (sum_list_map_perm _ _ _ Hperm).
Qed.

Lemma collected_urls_once_per_occurrence_witness :
  occurrences shared_game_url
    (all_game_urls (main echo_found (rev page_range) (fun _ _ => true)))
  = sum_list (map (fun page => occurrences shared_game_url (echo_found page))
                  page_range).
Proof.
  refine (proj1 (proj2 (collected_urls_once_per_occurrence echo_found
                          (rev page_range) (fun _ _ => true) shared_game_url _))).
  symmetry. apply Permutation_rev.
Defined.

(** C1, as the specification words it, fails: the first two listing
    pages of [echo_site] both link [shared_game_url], and the list
    handed to phase 2 holds it twice, as do the tasks submitted. *)
Lemma shared_url_collected_twice :
  occurrences shared_game_url (echo_found 1) = 1%nat
  /\ occurrences shared_game_url (echo_found 2) = 1%nat
  /\ let run := main echo_found page_range (fun _ _ => true) in
     occurrences shared_game_url (all_game_urls run) = 2%nat
     /\ occurrences shared_game_url (all_game_urls run) <> 1%nat
     /\ occurrences shared_game_url (tasks run).*2 = 2%nat.
Proof. by vm_compute. Qed.

(** ** Instances *)

Lemma make_request_with_retry_attempts_witness :
  (attempts_between (fresh_world dead_site)
     (make_request_with_retry shared_game_url 2 (fresh_world dead_site)).2 = 3
   /\ (make_request_with_retry shared_game_url 2 (fresh_world dead_site)).1
      = Raise (RequestException "timed out"))
  /\ (attempts_between (fresh_world echo_site)
        (make_request_with_retry shared_game_url 2 (fresh_world echo_site)).2 = 1
      /\ (make_request_with_retry shared_game_url 2 (fresh_world echo_site)).1
         = Return (Some (mkResponse 200 shared_game_url))).
Proof.
  destruct (make_request_with_retry_attempts shared_game_url 2 ltac:(lia))
    as [Hfail Hfirst].
  split.
  - apply (Hfail (fresh_world dead_site)). intros k _. reflexivity.
  - apply (Hfirst (fresh_world echo_site)); reflexivity.
Defined.


Lemma parse_and_save_game_deterministic_witness :
  (parse_and_save_game detail_parser shared_game_url (fresh_world echo_site)).1
  = (parse_and_save_game detail_parser shared_game_url (fresh_world flaky_site)).1
  /\ records_written (fresh_world echo_site)
       (parse_and_save_game detail_parser shared_game_url (fresh_world echo_site)).2
     = records_written (fresh_world flaky_site)
         (parse_and_save_game detail_parser shared_game_url (fresh_world flaky_site)).2.
Proof.
  destruct (parse_and_save_game_deterministic detail_parser shared_game_url
              (fresh_world echo_site) (fresh_world flaky_site)
              (mkResponse 200 shared_game_url) (mkResponse 203 shared_game_url))
    as (H1 & H2 & _); [reflexivity..|].
  split; [exact H1|exact H2].
Defined.


(** * Further properties *)

(** ** The retrying fetch, attempt by attempt *)

Lemma pauses_app evs evs' : pauses (evs ++ evs') = pauses evs + pauses evs'.
Proof.
  unfold pauses. induction evs as [|ev evs IH]; cbn; [done|]. rewrite IH. lia.
Qed.

Lemma pauses_failed_rounds url k :
  pauses (failed_rounds url k) = Z.of_nat k * (REQUEST_DELAY + RETRY_DELAY).
Proof.
  induction k as [|k IH]; [done|]. cbn [failed_rounds].
  rewrite pauses_app, IH. cbn. lia.
Qed.

Lemma gets_failed_rounds url k :
  length (List.filter is_get (failed_rounds url k)) = k.
Proof.
  induction k as [|k IH]; [done|]. cbn [failed_rounds].
  rewrite List.filter_app, length_app, IH. done.
Qed.

(** [k] failed attempts, each with one more to come, are [k] rounds of
    events; the loop then goes on with [k] turns fewer. *)
Lemma retry_loop_failed_rounds url m k : forall n a w,
  (k < n)%nat ->
  a + Z.of_nat n = m + 1 ->
  (forall j, (j < k)%nat ->
             attempt_fails (site w (requests w + j)%nat url) = true) ->
  retry_loop url m a n w
  = retry_loop url m (a + Z.of_nat k) (n - k)
      (mkWorld (trace w ++ failed_rounds url k) (files w) (site w)).
Proof.
  induction k as [|k IH]; intros n a w Hk Ha Hfail.
  - cbn [failed_rounds]. rewrite app_nil_r, Z.add_0_r, Nat.sub_0_r.
    by destruct w.
  - destruct n as [|n]; [lia|].
    rewrite retry_loop_step. cbn zeta.
    pose proof (Hfail 0%nat ltac:(lia)) as H0. rewrite Nat.add_0_r in H0.
    rewrite (attempt_fails_not_succeeds _ H0), H0.
    assert (Hlt : (a <? m) = true) by (apply Z.ltb_lt; lia). rewrite Hlt.
    cbn [trace files site]. rewrite <- !app_assoc.
    rewrite (IH n (a + 1)); [|lia|lia|].
    + cbn [trace files site]. rewrite <- !app_assoc.
      replace (a + 1 + Z.of_nat k) with (a + Z.of_nat (S k)) by lia.
      done.
    + intros j Hj. cbn [site]. rewrite requests_app, requests_eta. cbn.
      replace (requests w + 1 + j)%nat with (requests w + S j)%nat by lia.
      apply Hfail. lia.
Qed.

Lemma new_events_app w evs f s :
  new_events w (mkWorld (trace w ++ evs) f s) = evs.
Proof. unfold new_events. cbn. by rewrite drop_app_length. Qed.

Lemma requests_after_rounds w url k evs f s :
  requests (mkWorld (trace w ++ failed_rounds url k ++ evs) f s)
  = (requests w + k + length (List.filter is_get evs))%nat.
Proof.
  unfold requests. cbn [trace].
  rewrite !List.filter_app, !length_app, gets_failed_rounds. lia.
Qed.

Lemma requests_rounds w url k f s :
  requests (mkWorld (trace w ++ failed_rounds url k) f s) = (requests w + k)%nat.
Proof.
  unfold requests. cbn [trace].
  by rewrite List.filter_app, length_app, gets_failed_rounds.
Qed.

(** X1. When the first [k] attempts fail and the next one succeeds,
    with [k] within the retry bound, the call returns that response
    after exactly [k + 1] requests; its events are [k] rounds of
    pause, request, warning and retry pause, then one pause and the
    request that succeeds, so it has slept [(k + 1) * REQUEST_DELAY +
    k * RETRY_DELAY] seconds. *)
Theorem make_request_succeeds_after_failures (url : string)
    (max_retries : Z) (k : nat) (w : world) (r : Response) :
  Z.of_nat k <= max_retries ->
  (forall j, (j < k)%nat ->
             attempt_fails (site w (requests w + j)%nat url) = true) ->
  site w (requests w + k)%nat url = inr r ->
  error_status r = false ->
  let out := make_request_with_retry url max_retries w in
  out = (Return (Some r),
         mkWorld (trace w ++ failed_rounds url k ++ [Sleep REQUEST_DELAY; Get url])
                 (files w) (site w))
  /\ attempts_between w out.2 = Z.of_nat k + 1
  /\ slept w out.2
     = (Z.of_nat k + 1) * REQUEST_DELAY + Z.of_nat k * RETRY_DELAY.
Proof.
  intros Hk Hfail Hsite Hok. cbn zeta.
  assert (E : make_request_with_retry url max_retries w
              = (Return (Some r),
                 mkWorld (trace w ++ failed_rounds url k
                            ++ [Sleep REQUEST_DELAY; Get url])
                         (files w) (site w))).
  { unfold make_request_with_retry.
    rewrite (retry_loop_failed_rounds url max_retries k); [|lia|lia|done].
    replace (Z.to_nat (max_retries + 1) - k)%nat
      with (S (Z.to_nat max_retries - k)) by lia.
    rewrite retry_loop_step. cbn zeta. cbn [trace files site].
    rewrite requests_rounds, Hsite. cbn [attempt_succeeds]. rewrite Hok.
    cbn [negb]. by rewrite <- !app_assoc. }
  rewrite E. split_and!; [done| |].
  - unfold attempts_between. cbn [snd]. rewrite requests_after_rounds.
    cbn. lia.
  - unfold slept. cbn [snd]. rewrite new_events_app, pauses_app.
    rewrite pauses_failed_rounds. unfold REQUEST_DELAY, RETRY_DELAY. cbn. lia.
Qed.

(** X2. When every attempt fails, the call's events are [max_retries]
    rounds of pause, request, warning and retry pause, then a last
    pause and request and one error line; it has slept
    [(max_retries + 1) * REQUEST_DELAY + max_retries * RETRY_DELAY]
    seconds and has left the files alone. *)
Theorem make_request_exhausted_trace (url : string) (max_retries : Z)
    (w : world) :
  0 <= max_retries ->
  (forall j, (j <= Z.to_nat max_retries)%nat ->
             attempt_fails (site w (requests w + j)%nat url) = true) ->
  let out := make_request_with_retry url max_retries w in
  out.2 = mkWorld (trace w ++ failed_rounds url (Z.to_nat max_retries)
                     ++ [Sleep REQUEST_DELAY; Get url; Log ERROR url])
                  (files w) (site w)
  /\ slept w out.2
     = (max_retries + 1) * REQUEST_DELAY + max_retries * RETRY_DELAY.
Proof.
  intros Hm Hfail. cbn zeta.
  assert (E : (make_request_with_retry url max_retries w).2
              = mkWorld (trace w ++ failed_rounds url (Z.to_nat max_retries)
                           ++ [Sleep REQUEST_DELAY; Get url; Log ERROR url])
                        (files w) (site w)).
  { unfold make_request_with_retry.
    rewrite (retry_loop_failed_rounds url max_retries (Z.to_nat max_retries));
      [|lia|lia|intros j Hj; apply Hfail; lia].
    replace (Z.to_nat (max_retries + 1) - Z.to_nat max_retries)%nat
      with 1%nat by lia.
    rewrite retry_loop_step. cbn zeta. cbn [trace files site].
    rewrite requests_rounds.
    pose proof (Hfail (Z.to_nat max_retries) ltac:(lia)) as Hlast.
    rewrite (attempt_fails_not_succeeds _ Hlast), Hlast.
    replace (0 + Z.of_nat (Z.to_nat max_retries) <? max_retries) with false
      by (symmetry; apply Z.ltb_ge; lia).
    cbn [snd]. by rewrite <- !app_assoc. }
  rewrite E. split; [done|].
  unfold slept. rewrite new_events_app, pauses_app, pauses_failed_rounds.
  rewrite Z2Nat.id by done. unfold REQUEST_DELAY, RETRY_DELAY. cbn. lia.
Qed.

(** Whatever the site answers, a run of the loop with [n] turns left
    sends at least no and at most [n] requests, and at least one when a
    turn is left. *)
Lemma retry_loop_requests_bound url m n : forall a w,
  (requests w + (if n is O then 0 else 1) <= requests (retry_loop url m a n w).2
   <= requests w + n)%nat.
Proof.
  induction n as [|n IH]; intros a w; [cbn; lia|].
  rewrite retry_loop_step. cbn zeta. cbn [trace files site].
  assert (H2 : forall evs,
             requests (mkWorld (((trace w ++ [Sleep REQUEST_DELAY]) ++ [Get url]) ++ evs)
                               (files w) (site w))
             = (S (requests w) + length (List.filter is_get evs))%nat).
  { intros evs. unfold requests. cbn [trace].
    rewrite !List.filter_app, !length_app. cbn. lia. }
  assert (H1 : requests (mkWorld ((trace w ++ [Sleep REQUEST_DELAY]) ++ [Get url])
                                 (files w) (site w)) = S (requests w)).
  { rewrite <- (app_nil_r (_ ++ [Get url])), H2. cbn. lia. }
  destruct (attempt_succeeds _).
  { destruct (site w (requests w) url); cbn [snd]; rewrite H1; lia. }
  destruct (attempt_fails _); [|cbn [snd]; rewrite H1; lia].
  destruct (a <? m).
  - specialize (IH (a + 1)
      (mkWorld (((trace w ++ [Sleep REQUEST_DELAY]) ++ [Get url])
                  ++ [Log WARNING url; Sleep RETRY_DELAY]) (files w) (site w))).
    rewrite H2 in IH. cbn in IH. cbn [trace]. destruct n; lia.
  - cbn [snd trace]. rewrite H2. cbn. lia.
Qed.

(** X3. Whatever the site answers, a call sends at most
    [max_retries + 1] requests (none for a negative bound), leaves the
    results directory and the site alone, writes no record, and a
    response it returns never has an error status. *)
Theorem make_request_budget (url : string) (max_retries : Z) (w : world) :
  let out := make_request_with_retry url max_retries w in
  0 <= attempts_between w out.2 <= Z.max 0 (max_retries + 1)
  /\ files out.2 = files w
  /\ site out.2 = site w
  /\ records_written w out.2 = []
  /\ match out.1 with
     | Return (Some r) => error_status r = false
     | _ => True
     end.
Proof.
  cbn zeta. unfold make_request_with_retry, attempts_between.
  pose proof (retry_loop_requests_bound url max_retries
                (Z.to_nat (max_retries + 1)) 0 w) as Hb.
  pose proof (retry_loop_frame url max_retries
                (Z.to_nat (max_retries + 1)) 0 w) as (Hf & Hs & (evs & Ht & Hw) & Hr).
  split_and!; [lia|lia|done|done| |].
  - by rewrite (records_written_trace _ _ _ Ht).
  - destruct (retry_loop _ _ _ _ w).1 as [[r|]|e]; [|done..]. by apply Hr.
Qed.

(** With a turn left and the last turn at index [m], the loop does not
    run out: it returns a response or raises. *)
Lemma retry_loop_not_none url m n : forall a w,
  (0 < n)%nat -> a + Z.of_nat n = m + 1 ->
  (retry_loop url m a n w).1 <> Return None.
Proof.
  induction n as [|n IH]; intros a w Hn Ha; [lia|].
  rewrite retry_loop_step. cbn zeta.
  destruct (attempt_succeeds _).
  { by destruct (site w (requests w) url). }
  destruct (attempt_fails _); [|done].
  destruct (a <? m) eqn:Hlt; [|done].
  apply Z.ltb_lt in Hlt. apply IH; lia.
Qed.

(** X4. The call returns [None] exactly when the retry bound is
    negative, and then at once, without a pause or a request; with a
    bound that is a count it returns a response or raises. *)
Theorem make_request_none_iff_negative (url : string) (max_retries : Z)
    (w : world) :
  ((make_request_with_retry url max_retries w).1 = Return None
   <-> max_retries < 0)
  /\ (make_request_with_retry url max_retries w = (Return None, w)
      <-> max_retries < 0).
Proof.
  assert (Hneg : max_retries < 0 ->
                 make_request_with_retry url max_retries w = (Return None, w)).
  { intros H. unfold make_request_with_retry.
    replace (Z.to_nat (max_retries + 1)) with 0%nat by lia. done. }
  assert (Hpos : (make_request_with_retry url max_retries w).1 = Return None ->
                 max_retries < 0).
  { intros H. destruct (decide (max_retries < 0)) as [|Hge]; [done|].
    by destruct (retry_loop_not_none url max_retries
                   (Z.to_nat (max_retries + 1)) 0 w ltac:(lia) ltac:(lia)). }
  split; split; auto.
  - intros H. by rewrite (Hneg H).
  - intros H. apply Hpos. by rewrite H.
Qed.

(** ** The two tasks, whatever the site does *)

Section Tasks.

Variable html_parser : string -> list node.

Lemma requests_snoc_log w' lvl about f s :
  requests (mkWorld (trace w' ++ [Log lvl about]) f s) = requests w'.
Proof.
  unfold requests. cbn [trace]. rewrite List.filter_app, length_app. cbn. lia.
Qed.

(** X5. A listing scan never lets an exception out, writes no record
    and leaves the results directory alone, and sends between one and
    eleven requests, whatever the site answers. *)
Theorem process_page_contained (page : Z) (w : world) :
  let out := process_page html_parser page w in
  (exists links, out.1 = Return links)
  /\ files out.2 = files w
  /\ records_written w out.2 = []
  /\ 1 <= attempts_between w out.2 <= MAX_RETRIES + 1.
Proof.
  cbn zeta. rewrite process_page_cases. cbn zeta.
  unfold make_request_with_retry, attempts_between.
  pose proof (retry_loop_requests_bound (page_url page) MAX_RETRIES
                (Z.to_nat (MAX_RETRIES + 1)) 0 w) as Hb.
  pose proof (retry_loop_frame (page_url page) MAX_RETRIES
                (Z.to_nat (MAX_RETRIES + 1)) 0 w) as (Hf & _ & (evs & Ht & Hw) & _).
  change (Z.to_nat (MAX_RETRIES + 1)) with 11%nat in *. unfold MAX_RETRIES.
  destruct (retry_loop _ _ _ _ w) as [[[r|]|e] w']; cbn [fst snd] in *.
  - split_and!; [by eexists|done| |lia|lia].
    by rewrite (records_written_trace _ _ _ Ht).
  - split_and!; [by eexists|done| |lia|lia].
    by rewrite (records_written_trace _ _ _ Ht).
  - rewrite requests_snoc_log. cbn [files].
    split_and!; [by eexists|done| |lia|lia].
    erewrite records_written_trace
      by (cbn [trace]; rewrite Ht, <- app_assoc; reflexivity).
    by rewrite omap_app, Hw.
Qed.

(** X6. A listing page whose eleven attempts all fail gives the empty
    list, with one warning after the error line of the fetch. *)
Theorem process_page_unreachable (page : Z) (w : world) :
  (forall j, (j <= 10)%nat ->
             attempt_fails (site w (requests w + j)%nat (page_url page)) = true) ->
  let out := process_page html_parser page w in
  out.1 = Return []
  /\ new_events w out.2
     = failed_rounds (page_url page) 10
       ++ [Sleep REQUEST_DELAY; Get (page_url page); Log ERROR (page_url page);
           Log WARNING (str_of_int page)]
  /\ attempts_between w out.2 = 11
  /\ slept w out.2 = 61.
Proof.
  intros Hfail. cbn zeta. rewrite process_page_cases. cbn zeta.
  unfold make_request_with_retry. change (Z.to_nat (MAX_RETRIES + 1)) with 11%nat.
  rewrite (retry_loop_failed_rounds (page_url page) MAX_RETRIES 10);
    [|lia|done|intros j Hj; apply Hfail; lia].
  change (11 - 10)%nat with 1%nat.
  rewrite retry_loop_step. cbn zeta. cbn [trace files site].
  rewrite requests_rounds.
  pose proof (Hfail 10%nat ltac:(lia)) as Hlast.
  rewrite (attempt_fails_not_succeeds _ Hlast), Hlast.
  change (0 + Z.of_nat 10 <? MAX_RETRIES) with false.
  cbn [fst snd trace files site].
  rewrite <- !app_assoc. cbn [app].
  split_and!; [done|apply new_events_app| |].
  - unfold attempts_between. rewrite requests_after_rounds. cbn. lia.
  - unfold slept. rewrite new_events_app, pauses_app, pauses_failed_rounds. done.
Qed.

(** X7. A detail task sends between one and eleven requests, writes at
    most one record, and changes at most one file of the results
    directory, whatever the site answers and whatever the page holds. *)
Theorem parse_and_save_game_contained (url : string) (w : world) :
  let out := parse_and_save_game html_parser url w in
  1 <= attempts_between w out.2 <= MAX_RETRIES + 1
  /\ (length (records_written w out.2) <= 1)%nat
  /\ exists path, forall other,
       other <> path -> files out.2 !! other = files w !! other.
Proof.
  cbn zeta.
  pose proof (parse_and_save_game_outcome html_parser url w) as Ho.
  cbn zeta in Ho.
  rewrite parse_and_save_game_cases in *. cbn zeta in *.
  unfold make_request_with_retry, attempts_between in *.
  pose proof (retry_loop_requests_bound url MAX_RETRIES
                (Z.to_nat (MAX_RETRIES + 1)) 0 w) as Hb.
  change (Z.to_nat (MAX_RETRIES + 1)) with 11%nat in *. unfold MAX_RETRIES.
  destruct (retry_loop _ _ _ _ w) as [[[r|]|e] w']; cbn [fst snd] in *.
  - destruct (extract url _) as [[path text]|e]; cbn [fst snd] in *;
      destruct Ho as (_ & -> & ->).
    + split_and!.
      * unfold requests in *. cbn [trace].
        rewrite !List.filter_app, !length_app. cbn. lia.
      * unfold requests in *. cbn [trace].
        rewrite !List.filter_app, !length_app. cbn. lia.
      * done.
      * exists path. intros other Hne. by rewrite lookup_insert_ne.
    + split_and!.
      * unfold requests in *. cbn [trace].
        rewrite !List.filter_app, !length_app. cbn. lia.
      * unfold requests in *. cbn [trace].
        rewrite !List.filter_app, !length_app. cbn. lia.
      * cbn. lia.
      * by exists url.
  - destruct Ho as (_ & -> & ->). split_and!; [lia|lia|cbn; lia|by exists url].
  - destruct Ho as (_ & -> & ->). rewrite requests_snoc_log.
    split_and!; [lia|lia|cbn; lia|by exists url].
Qed.

End Tasks.

(** ** Listing pages *)

Lemma str_of_int_inj n m : str_of_int n = str_of_int m -> n = m.
Proof.
  unfold str_of_int. intros E. apply DecimalZ.to_int_inj.
  pose proof (NilEmpty.isi (Z.to_int n)) as Hn.
  pose proof (NilEmpty.isi (Z.to_int m)) as Hm.
  rewrite E in Hn. rewrite Hn in Hm. by injection Hm.
Qed.

(** X8. Page indices up to one all name the catalogue URL itself;
    from one on, different indices name different URLs, so no two of
    the pages of a run are fetched from the same address. *)
Theorem page_url_distinct (n m : Z) :
  (n <= 1 -> page_url n = BASE_URL)
  /\ (1 <= n -> 1 <= m -> n <> m -> page_url n <> page_url m).
Proof.
  split.
  - intros H. unfold page_url. by rewrite (proj2 (Z.ltb_ge 1 n)).
  - intros Hn Hm Hne Heq. apply Hne. revert Heq. unfold page_url.
    destruct (1 <? n) eqn:En, (1 <? m) eqn:Em;
      try apply Z.ltb_lt in En; try apply Z.ltb_ge in En;
      try apply Z.ltb_lt in Em; try apply Z.ltb_ge in Em; intros E.
    + apply String.app_inj in E. apply String.app_inj in E.
      by apply str_of_int_inj.
    + apply (f_equal String.length) in E. rewrite !length_app_str in E.
      change (String.length "/page/") with 6%nat in E. lia.
    + apply (f_equal String.length) in E. rewrite !length_app_str in E.
      change (String.length "/page/") with 6%nat in E. lia.
    + lia.
Qed.

Lemma page_url_distinct_witness :
  page_url 0 = BASE_URL /\ page_url 1 <> page_url 2
  /\ page_url 2 <> page_url 122.
Proof.
  split_and!.
  - apply (proj1 (page_url_distinct 0 0)). lia.
  - apply (proj2 (page_url_distinct 1 2)); lia.
  - apply (proj2 (page_url_distinct 2 122)); lia.
Defined.

(** X9. The links of a page are the hrefs of its title links that
    pass the test, in document order and with their repetitions: an
    href is neither added nor dropped beyond the test, and a link
    that stands twice on a page is returned twice. *)
Theorem game_links_of_filter (soup : node) :
  game_links_of soup
  = filter (fun href => keep_href href = true)
           (omap (get_attr "href") (select_entry_title_links soup)).
Proof.
  unfold game_links_of.
  induction (select_entry_title_links soup) as [|link links IH]; [done|].
  cbn [omap list_omap]. unfold game_link at 1.
  destruct (get_attr "href" link) as [href|]; [|exact IH].
  rewrite filter_cons. destruct (keep_href href) eqn:E.
  - rewrite decide_True by done. by rewrite IH.
  - rewrite decide_False by done. exact IH.
Qed.

(** Characters that no other character is lowered to. *)
Lemma lower_keeps_marker_chars x c :
  x ∈ ["/"; "2"; "0"]%char ->
  Ascii.eqb x (py_lower_char c) = Ascii.eqb x c.
Proof.
  intros Hx. repeat (apply elem_of_cons in Hx as [->|Hx]);
    [..|by apply elem_of_nil in Hx];
    by destruct c as [[] [] [] [] [] [] [] []].
Qed.

Lemma startswith_lower p : forall s,
  Forall (fun x => x ∈ ["/"; "2"; "0"]%char) (chars p) ->
  startswith p (lower s) = startswith p s.
Proof.
  induction p as [|x p IH]; intros s Hp; [done|].
  cbn in Hp. apply Forall_cons in Hp as [Hx Hp].
  destruct s as [|c s]; [done|]. cbn.
  by rewrite lower_keeps_marker_chars, IH.
Qed.

Lemma contains_lower p s :
  Forall (fun x => x ∈ ["/"; "2"; "0"]%char) (chars p) ->
  contains p (lower s) = contains p s.
Proof.
  intros Hp. induction s as [|c s IH].
  - done.
  - cbn [lower contains]. rewrite <- IH.
    change (String (py_lower_char c) (lower s)) with (lower (String c s)).
    by rewrite startswith_lower.
Qed.

(** X10. The test on an href looks at its letters without their case:
    two hrefs that differ in letter case alone are both kept or both
    dropped. *)
Theorem keep_href_ignores_case (h1 h2 : string) :
  lower h1 = lower h2 -> keep_href h1 = keep_href h2.
Proof.
  intros E. unfold keep_href.
  rewrite <- (contains_lower "/20" h1), <- (contains_lower "/20" h2), E
    by (repeat constructor).
  do 2 f_equal. destruct h1, h2; done.
Qed.

Lemma keep_href_ignores_case_witness :
  keep_href "https://game-2u.com/2024/01/Some-Game-PS4/"
  = keep_href "https://game-2u.com/2024/01/some-game-ps4/".
Proof. apply keep_href_ignores_case. reflexivity. Defined.

Lemma select_from_no_heading n :
  entry_title_heading n = false ->
  Forall (fun k => entry_title_heading k = false) (descendants n) ->
  select_from false n = [].
Proof.
  induction n as [s|name cls at_ kids IH] using node_induction; [done|].
  intros Hn Hd. cbn [select_from andb app orb].
  change (is_tag "h2" (NElem name cls at_ kids)
          && has_class "entry-title" (NElem name cls at_ kids))
    with (entry_title_heading (NElem name cls at_ kids)).
  rewrite Hn. cbn [descendants] in Hd.
  induction kids as [|k kids IHk]; [done|].
  apply Forall_cons in IH as [IHhd IHtl]. cbn [flat_map] in *.
  apply Forall_app in Hd as [Hk Hd]. apply Forall_cons in Hk as [Hk Hkd].
  rewrite (IHhd Hk Hkd). cbn [app]. by apply IHk.
Qed.

(** X11. Links are taken from [h2] headings of class [entry-title]
    alone: a page without such a heading gives no link, whatever else
    it links. *)
Theorem game_links_need_heading (top : list node) :
  Forall (fun k => entry_title_heading k = false) (descendants (soup_of top)) ->
  game_links_of (soup_of top) = [].
Proof.
  intros H. unfold game_links_of, select_entry_title_links.
  by rewrite select_from_no_heading.
Qed.

Lemma game_links_need_heading_witness :
  game_links_of
    (soup_of [NElem "h3" ["entry-title"] ∅ [anchor shared_game_url "Some Game"];
              NElem "h2" ["widget-title"] ∅ [anchor shared_game_url "Some Game"]])
  = [].
Proof.
  apply game_links_need_heading. repeat (constructor; [reflexivity|]). constructor.
Defined.

(** ** File names *)

Lemma length_chars s : length (chars s) = String.length s.
Proof. induction s as [|c s IH]; [done|]. cbn. by rewrite IH. Qed.

Lemma chars_strip_sublist s : chars (strip s) `sublist_of` chars s.
Proof.
  unfold strip.
  destruct (chars_lstrip_suffix (rstrip s)) as [k1 E1].
  destruct (chars_rstrip_prefix s) as [k2 E2].
  rewrite E2, E1. apply sublist_inserts_r, sublist_inserts_l. done.
Qed.

(** X12. Sanitizing only takes characters away: the result is a
    subsequence of the name, so it keeps the order of the characters
    that stay and is never longer than the name. *)
Theorem sanitize_filename_subsequence (s : string) :
  chars (sanitize_filename s) `sublist_of` chars s
  /\ (String.length (sanitize_filename s) <= String.length s)%nat.
Proof.
  assert (H : chars (sanitize_filename s) `sublist_of` chars s).
  { unfold sanitize_filename. etrans; [apply chars_strip_sublist|].
    rewrite chars_remove_chars. apply sublist_filter. }
  split; [done|]. rewrite <- !length_chars. by apply sublist_length.
Qed.

Lemma lstrip_id s : leading_space s = false -> lstrip s = s.
Proof.
  destruct s as [|c s]; [done|]. unfold leading_space. cbn. by intros ->.
Qed.

Lemma rstrip_id s : trailing_space s = false -> rstrip s = s.
Proof.
  unfold trailing_space, last_char.
  induction s as [|c r IH]; [done|]. intros H.
  destruct r as [|d r'].
  - cbn in *. by rewrite H.
  - cbn [chars] in H. rewrite last_chars_cons in H.
    pose proof (IH H) as E. cbn [rstrip] in E |- *. by rewrite E.
Qed.

(** X13. The names sanitizing leaves as they are are exactly those
    that hold none of the nine characters and neither start nor end
    with white space. *)
Theorem sanitize_filename_fixed_iff (s : string) :
  sanitize_filename s = s
  <-> Forall (fun c => c ∉ invalid_chars) (chars s)
      /\ leading_space s = false /\ trailing_space s = false.
Proof.
  split.
  - intros E. split_and!.
    + rewrite <- E. eapply Forall_impl.
      * apply Forall_chars_strip, remove_chars_Forall.
      * intros c. apply is_invalid_char_false.
    + rewrite <- E. apply leading_space_lstrip.
    + rewrite <- E. apply trailing_space_lstrip, trailing_space_rstrip.
  - intros (Hc & Hl & Ht). unfold sanitize_filename.
    rewrite remove_chars_clean.
    + unfold strip. by rewrite (rstrip_id s Ht), (lstrip_id s Hl).
    + eapply Forall_impl; [exact Hc|]. intros c. apply is_invalid_char_false.
Qed.

Lemma sanitize_filename_fixed_iff_witness :
  sanitize_filename "Some Game (v1.05)" = "Some Game (v1.05)".
Proof.
  apply sanitize_filename_fixed_iff. split_and!; [|reflexivity..].
  repeat (constructor; [by apply is_invalid_char_false|]). constructor.
Defined.

(** X14. The file of a game lies directly in the results directory:
    its path starts with [results/], ends with [.txt], holds that one
    slash and no backslash, whatever the title. *)
Theorem filepath_of_inside_results (game_name : string) :
  startswith "results/" (filepath_of game_name) = true
  /\ filepath_of game_name
     = "results/" +:+ sanitize_filename game_name +:+ ".txt"
  /\ length (filter (fun c => c = "/"%char) (chars (filepath_of game_name))) = 1%nat
  /\ "\"%char ∉ chars (filepath_of game_name).
Proof.
  assert (Hclean : Forall (fun c => is_invalid_char c = false)
                          (chars (sanitize_filename game_name))).
  { apply Forall_chars_strip, remove_chars_Forall. }
  unfold filepath_of, RESULTS_DIR.
  change ("results" +:+ "/" +:+ ?x) with ("results/" +:+ x).
  split_and!.
  - apply ReFacts.startswith_app.
  - done.
  - rewrite !chars_app, !filter_app, !length_app.
    assert (E : filter (fun c => c = "/"%char)
                       (chars (sanitize_filename game_name)) = []).
    { induction Hclean as [|c l Hc _ IH]; [done|].
      rewrite filter_cons, decide_False; [done|]. intros ->. done. }
    rewrite E. done.
  - rewrite !chars_app, !not_elem_of_app. split_and!.
    + by vm_compute; intros H; repeat (apply elem_of_cons in H as [H|H]; [done|]);
        apply elem_of_nil in H.
    + intros H. rewrite Forall_forall in Hclean. by apply Hclean in H.
    + by vm_compute; intros H; repeat (apply elem_of_cons in H as [H|H]; [done|]);
        apply elem_of_nil in H.
Qed.

Lemma extract_path url soup record :
  extract url soup = Return record -> record.1 = filepath_of (game_name_of soup).
Proof.
  unfold extract. destruct (section_links_of soup); [|done]. by intros [= <-].
Qed.

Section Collision.

Variable html_parser : string -> list node.

(** X15. Two pages whose titles sanitize to the same name share one
    file: when the second is saved after the first, the file holds
    the second record and the first is gone. *)
Theorem same_name_overwrites (url1 url2 : string) (w : world)
    (r1 r2 : Response) (record1 record2 : string * string) :
  (make_request_with_retry url1 MAX_RETRIES w).1 = Return (Some r1) ->
  extract url1 (soup_of (html_parser (body r1))) = Return record1 ->
  (make_request_with_retry url2 MAX_RETRIES
     (parse_and_save_game html_parser url1 w).2).1 = Return (Some r2) ->
  extract url2 (soup_of (html_parser (body r2))) = Return record2 ->
  sanitize_filename (game_name_of (soup_of (html_parser (body r1))))
  = sanitize_filename (game_name_of (soup_of (html_parser (body r2)))) ->
  record1.1 = record2.1
  /\ files (parse_and_save_game html_parser url2
              (parse_and_save_game html_parser url1 w).2).2
     = <[record2.1 := record2.2]> (files w).
Proof.
  intros F1 E1 F2 E2 Hname.
  pose proof (parse_and_save_game_outcome html_parser url1 w) as O1.
  pose proof (parse_and_save_game_outcome html_parser url2
                (parse_and_save_game html_parser url1 w).2) as O2.
  cbn zeta in O1, O2. rewrite F1, E1 in O1. rewrite F2, E2 in O2.
  destruct O1 as (_ & _ & G1), O2 as (_ & _ & G2).
  assert (Hp : record1.1 = record2.1).
  { rewrite (extract_path _ _ _ E1), (extract_path _ _ _ E2).
    unfold filepath_of. by rewrite Hname. }
  split; [done|]. rewrite G2, G1, Hp. apply insert_insert_eq.
Qed.

End Collision.

Lemma same_name_overwrites_witness :
  files (parse_and_save_game twin_parser shared_game_url
           (parse_and_save_game twin_parser colon_title_url
              (fresh_world echo_site)).2).2
  = {["results/Game One.txt" :=
        record_text_of shared_game_url (soup_of (titled_markup "Game One"))]}.
Proof.
  destruct (same_name_overwrites twin_parser colon_title_url shared_game_url
              (fresh_world echo_site)
              (mkResponse 200 colon_title_url) (mkResponse 200 shared_game_url)
              ("results/Game One.txt",
               record_text_of colon_title_url (soup_of (titled_markup "Game: One")))
              ("results/Game One.txt",
               record_text_of shared_game_url (soup_of (titled_markup "Game One"))))
    as [_ H]; [reflexivity..|].
  rewrite H. reflexivity.
Defined.

(** ** Link sections *)

Lemma extend_keys key links (sl : section_links) : (extend key links sl).*1 = sl.*1.
Proof.
  unfold extend. induction sl as [|[k v] sl IH]; [done|]. cbn.
  rewrite <- IH. by destruct (bool_decide (k = key)).
Qed.

Lemma section_extend_prefix k key links (sl : section_links) :
  section k sl `prefix_of` section k (extend key links sl).
Proof.
  unfold section, extend. induction sl as [|[k0 v0] sl IH]; [done|].
  cbn [map fst snd]. destruct (bool_decide (k0 = key)); rewrite !filter_cons;
    cbn [fst]; destruct (decide (k0 = k)); try exact IH; cbn.
  - by apply prefix_app_r.
  - done.
Qed.

(** What a row does to the sections: it keeps their keys and their
    order, and every section as a prefix of what it becomes. *)
Lemma link_row_grows sl row sl' :
  link_row sl row = Return sl' ->
  sl'.*1 = sl.*1 /\ forall k, section k sl `prefix_of` section k sl'.
Proof.
  unfold link_row. intros H.
  assert (Hext : forall key links,
             (extend key links sl).*1 = sl.*1
             /\ forall k, section k sl `prefix_of` section k (extend key links sl)).
  { intros. split; [apply extend_keys|intros; apply section_extend_prefix]. }
  destruct (find_all "td" row) as [|c0 [|c1 [|c2 [|c3 cells]]]];
    try (injection H as <-; done).
  - destruct (contains "torrent" _); [|injection H as <-; done].
    destruct (find "a" c0); [|injection H as <-; done].
    destruct (format_link n); [|done]. injection H as <-. apply Hext.
  - destruct (comprehension _ _); [|done].
    destruct (contains "base" _); [injection H as <-; apply Hext|].
    destruct (contains "update" _ && _); [injection H as <-; apply Hext|].
    destruct (contains "fix" _); injection H as <-; [apply Hext|done].
Qed.

(** X16. Working through rows never loses what was collected: the
    sections keep their four keys in their order, and the links
    already in a section stay in place, new ones being added behind
    them. *)
Theorem link_rows_append_only (rows : list node) (sl sl' : section_links) :
  link_rows sl rows = Return sl' ->
  sl'.*1 = sl.*1 /\ forall k, section k sl `prefix_of` section k sl'.
Proof.
  revert sl. induction rows as [|row rows IH]; intros sl H.
  - cbn in H. by injection H as <-.
  - cbn in H. destruct (link_row sl row) as [sl1|e] eqn:E1; [|done].
    destruct (link_row_grows _ _ _ E1) as [K1 P1].
    destruct (IH _ H) as [K2 P2]. split; [congruence|].
    intros k. etrans; [apply P1|apply P2].
Qed.

Lemma link_rows_append_only_witness :
  ["kept - link"]
    `prefix_of` section "Base Game"
                  [("Base Game", ["kept - link"; "https://host/part1 - Part 1";
                                  "https://host/part2 - Part 2"]);
                   ("Update", []); ("Fix", []); ("Torrent", [])].
Proof.
  refine (proj2 (link_rows_append_only [base_game_row; short_base_game_row]
                   [("Base Game", ["kept - link"]); ("Update", []);
                    ("Fix", []); ("Torrent", [])] _ _) "Base Game").
  reflexivity.
Defined.

(** X17. Extraction can fail in one way only: with [KeyError] on
    [href], at a row of exactly two cells whose first cell names a
    torrent and whose first [a] tag has no href. *)
Theorem extract_raises_only_at_torrent (url : string) (soup : node) (e : exn) :
  extract url soup = Raise e ->
  e = KeyError "href"
  /\ exists row c0 c1 a,
       row ∈ flat_map (find_all "tr") (info_tables soup)
       /\ find_all "td" row = [c0; c1]
       /\ contains "torrent" (lower (get_text c0)) = true
       /\ find "a" c0 = Some a
       /\ get_attr "href" a = None.
Proof.
  unfold extract, section_links_of.
  generalize (flat_map (find_all "tr") (info_tables soup)) as rows.
  generalize empty_sections as sl. intros sl rows.
  destruct (link_rows sl rows) as [sl'|e'] eqn:E; [done|]. intros [= <-].
  revert sl E. induction rows as [|row rows IH]; intros sl E; [done|].
  cbn in E. destruct (link_row sl row) as [sl1|e1] eqn:E1.
  - destruct (IH _ E) as (He & row' & c0 & c1 & a & Hin & H).
    split; [done|]. exists row', c0, c1, a. split; [by right|done].
  - injection E as <-. unfold link_row in E1.
    destruct (find_all "td" row) as [|c0 [|c1 [|c2 [|c3 cells]]]] eqn:Etd;
      try done.
    + destruct (contains "torrent" _) eqn:Et; [|done].
      destruct (find "a" c0) as [a|] eqn:Ea; [|done].
      unfold format_link in E1.
      destruct (get_attr "href" a) eqn:Eh; [done|]. injection E1 as <-.
      split; [done|]. exists row, c0, c1, a. split; [by left|done].
    + rewrite (comprehension_format_link _ (find_all_a_href_have_href c3)) in E1.
      destruct (contains "base" _); [done|].
      destruct (contains "update" _ && _); [done|].
      by destruct (contains "fix" _).
Qed.

Lemma extract_raises_only_at_torrent_witness :
  exists row c0 c1 a,
    row ∈ flat_map (find_all "tr") (info_tables torrent_page)
    /\ find_all "td" row = [c0; c1]
    /\ contains "torrent" (lower (get_text c0)) = true
    /\ find "a" c0 = Some a
    /\ get_attr "href" a = None.
Proof.
  apply (extract_raises_only_at_torrent shared_game_url torrent_page
           (KeyError "href")).
  reflexivity.
Defined.

(** X18. Rows of fewer than two cells and rows of three cells add no
    link, whatever they say: a page whose tables have such rows only,
    be it a base-game row with three cells, gets no link section. *)
Theorem short_rows_give_no_links (soup : node) :
  Forall (fun row => (length (find_all "td" row) < 2)%nat
                     \/ length (find_all "td" row) = 3%nat)
         (flat_map (find_all "tr") (info_tables soup)) ->
  section_links_of soup = Return empty_sections
  /\ link_lines empty_sections = [].
Proof.
  intros H. split; [|done]. unfold section_links_of.
  induction H as [|row rows Hrow _ IH]; [done|].
  cbn [link_rows]. rewrite link_row_other; [exact IH|lia|lia].
Qed.

Lemma short_rows_give_no_links_witness :
  section_links_of short_row_page = Return empty_sections.
Proof.
  apply short_rows_give_no_links.
  change (flat_map (find_all "tr") (info_tables short_row_page))
    with [short_base_game_row].
  constructor; [right; reflexivity|constructor].
Defined.

(** ** The attribute table, its keys *)

(** X19. No key of the attribute mapping holds a colon, so the lookup
    of a key with a colon in it gives [Unknown] on every page. *)
Theorem table_data_key_with_colon (soup : node) (k : string) :
  ":"%char ∈ chars k -> dict_get (table_data_of soup) k = "Unknown".
Proof.
  intros Hk. unfold dict_get. rewrite table_data_of_lookup.
  unfold last_value, attribute_rows.
  destruct (info_tables soup) as [|first _]; [done|].
  assert (E : filter (fun kv : string * string => kv.1 = k)
                     (omap attribute_pair (find_all "tr" first)) = []).
  { induction (find_all "tr" first) as [|row rows IH]; [done|].
    cbn [omap list_omap]. destruct (attribute_pair row) as [kv|] eqn:Ep; [|done].
    rewrite filter_cons, decide_False; [exact IH|].
    intros <-. unfold attribute_pair in Ep.
    destruct (find_all "td" row) as [|c0 [|c1 cells]]; try done.
    injection Ep as <-. cbn [fst] in Hk.
    pose proof (remove_chars_Forall is_colon (get_text_strip c0)) as Hf.
    rewrite Forall_forall in Hf. by apply Hf in Hk. }
  by rewrite E.
Qed.

Lemma table_data_key_with_colon_witness :
  dict_get (table_data_of colon_page) "Required: firmware" = "Unknown".
Proof.
  apply table_data_key_with_colon.
  apply list_elem_of_In. cbn. tauto.
Defined.

(** ** The orchestrator, its counts *)

(** X20. The order in which the scans complete decides the order of
    the collected URLs and nothing else: two orders of completion
    collect the same URLs the same number of times. *)
Theorem main_collects_same_urls (found : Z -> list string)
    (completed completed' : list Z) (saved saved' : nat -> string -> bool) :
  completed ≡ₚ completed' ->
  all_game_urls (main found completed saved)
  ≡ₚ all_game_urls (main found completed' saved').
Proof.
  intros H. unfold main. cbn [all_game_urls].
  rewrite !collect_game_urls_flat_map. by apply Permutation_flat_map.
Qed.

Lemma main_collects_same_urls_witness :
  all_game_urls (main echo_found page_range (fun _ _ => true))
  ≡ₚ all_game_urls (main echo_found (rev page_range) (fun _ _ => false)).
Proof. apply main_collects_same_urls. apply Permutation_rev. Defined.

(** X21. One task is submitted for each collected URL, and the games
    counted at the end are the tasks that returned [True]: never more
    than the URLs collected, all of them when every task succeeds and
    none when every task fails. *)
Theorem main_counts (found : Z -> list string) (completed : list Z)
    (saved : nat -> string -> bool) :
  length (tasks (main found completed saved))
  = length (all_game_urls (main found completed saved))
  /\ (total_games (main found completed saved)
      <= length (all_game_urls (main found completed saved)))%nat
  /\ total_games (main found completed (fun _ _ => true))
     = length (all_game_urls (main found completed saved))
  /\ total_games (main found completed (fun _ _ => false)) = 0%nat.
Proof.
  unfold main. cbn [tasks all_game_urls total_games].
  assert (Hlen : length (submitted_tasks (collect_game_urls found completed))
                 = length (collect_game_urls found completed)).
  { rewrite <- (submitted_tasks_urls (collect_game_urls found completed)) at 2.
    by rewrite length_fmap. }
  split_and!.
  - done.
  - rewrite <- Hlen. apply length_filter.
  - rewrite <- Hlen. clear Hlen. f_equal.
    induction (submitted_tasks _) as [|t l IH]; [done|].
    rewrite filter_cons, decide_True by done. by rewrite IH.
  - clear Hlen. induction (submitted_tasks _) as [|t l IH]; [done|].
    by rewrite filter_cons, decide_False by done.
Qed.

(** ** Sizes, their shape *)

Lemma size_token_length m :
  is_size_token m -> (5 <= String.length m <= 9)%nat.
Proof.
  intros (d1 & d2 & sp & -> & [H1 _] & [H2 _] & Hsp).
  rewrite !length_app_str. change (String.length ".") with 1%nat.
  change (String.length "GB") with 2%nat.
  destruct Hsp as [->|(c & -> & _)]; cbn [String.length]; lia.
Qed.

Lemma scanned_lengths s ms :
  scanned s ms ->
  (sum_list (String.length <$> ms) <= String.length s)%nat.
Proof.
  induction 1 as [|m rest ms _ _ IH|c rest ms _ _ IH]; cbn.
  - done.
  - rewrite length_app_str. lia.
  - lia.
Qed.

(** X22. Every size found is at least five and at most nine
    characters long, and the sizes found do not overlap: together
    they are no longer than the text of the page. *)
Theorem size_matches_shape (soup : node) :
  Forall (fun m => (5 <= String.length m <= 9)%nat) (size_matches_of soup)
  /\ (sum_list (String.length <$> size_matches_of soup)
      <= String.length (get_text soup))%nat.
Proof.
  unfold size_matches_of.
  pose proof (ReFacts.findall_scanned (get_text soup)) as H. split.
  - eapply Forall_impl; [apply (ReFacts.scanned_tokens _ _ H)|].
    intros m [Hm _]. by apply size_token_length.
  - by apply scanned_lengths.
Qed.

(** ** Trimmed text and substrings *)

Lemma leading_space_app p x :
  p <> EmptyString -> leading_space (p +:+ x) = leading_space p.
Proof. by destruct p. Qed.

Lemma trailing_space_app p x :
  x <> EmptyString -> trailing_space (p +:+ x) = trailing_space x.
Proof.
  intros Hx. unfold trailing_space, last_char. rewrite chars_app.
  destruct x as [|c x]; [done|]. cbn [chars].
  induction (chars p) as [|d l IH]; [done|].
  destruct l; cbn in *; exact IH.
Qed.

Lemma join_empty_cons p rest :
  join EmptyString (p :: rest) = p +:+ join EmptyString rest.
Proof.
  destruct rest as [|q rest]; [|done]. cbn.
  induction p as [|c p IH]; [done|]. by rewrite app_cons, <- IH.
Qed.

Lemma join_trimmed (fragments : list string) :
  Forall (fun f => f <> EmptyString /\ leading_space f = false
                   /\ trailing_space f = false) fragments ->
  leading_space (join EmptyString fragments) = false
  /\ trailing_space (join EmptyString fragments) = false.
Proof.
  induction 1 as [|f rest (Hne & Hl & Ht) Hrest [_ IHt]]; [done|].
  rewrite join_empty_cons. split.
  - by rewrite leading_space_app.
  - destruct rest as [|g rest].
    + cbn [join]. destruct f; [done|].
      replace (String a f +:+ EmptyString) with (String a f); [done|].
      clear. generalize (String a f). intros s.
      induction s as [|c s IH]; [done|]. by rewrite app_cons, <- IH.
    + rewrite trailing_space_app; [done|].
      apply Forall_cons in Hrest as [(Hg & _) _].
      rewrite join_empty_cons. by destruct g.
Qed.

Lemma all_strings_trimmed n :
  Forall (fun f => f <> EmptyString /\ leading_space f = false
                   /\ trailing_space f = false) (all_strings true n).
Proof.
  induction n as [s|name cls at_ kids IH] using node_induction.
  - cbn. case_bool_decide as E; constructor; [|constructor].
    split_and!; [done|apply leading_space_lstrip|].
    apply trailing_space_lstrip, trailing_space_rstrip.
  - cbn [all_strings]. induction IH as [|k kids Hk _ IHk]; [constructor|].
    cbn [flat_map]. by apply Forall_app.
Qed.

(** X23. The stripped text of a tag, as used for the table keys and
    values and for the link texts, neither starts nor ends with white
    space, however the markup spreads the text over nested tags. *)
Theorem get_text_strip_trimmed (n : node) :
  leading_space (get_text_strip n) = false
  /\ trailing_space (get_text_strip n) = false.
Proof. apply join_trimmed, all_strings_trimmed. Qed.

Lemma contains_spec p s :
  contains p s = true <-> exists pre post, s = pre +:+ p +:+ post.
Proof.
  split.
  - induction s as [|c s IH]; cbn [contains]; intros H.
    + rewrite orb_false_r in H. apply ReFacts.startswith_split in H.
      by exists EmptyString, (Re.drop_chars (String.length p) EmptyString).
    + apply orb_true_iff in H as [H|H].
      * apply ReFacts.startswith_split in H.
        by exists EmptyString, (Re.drop_chars (String.length p) (String c s)).
      * destruct (IH H) as (pre & post & ->). by exists (String c pre), post.
  - assert (Hhead : forall t, startswith p t = true -> contains p t = true).
    { intros [|c t] Ht; cbn [contains]; by rewrite Ht. }
    intros (pre & post & ->). induction pre as [|c pre IH].
    + rewrite app_nil_left. apply Hhead, ReFacts.startswith_app.
    + rewrite app_cons. cbn [contains]. by rewrite IH, orb_true_r.
Qed.

(** X24. An href passes the test of the scan exactly when it is not
    empty, holds the text [/20] somewhere, and holds [ps4] somewhere
    once its letters are lowered. *)
Theorem keep_href_iff (href : string) :
  keep_href href = true
  <-> href <> EmptyString
      /\ (exists pre post, href = pre +:+ "/20" +:+ post)
      /\ (exists pre post, lower href = pre +:+ "ps4" +:+ post).
Proof.
  unfold keep_href. rewrite !andb_true_iff, negb_true_iff, bool_decide_eq_false.
  rewrite !contains_spec. tauto.
Qed.

Lemma keep_href_iff_witness : keep_href shared_game_url = true.
Proof.
  apply keep_href_iff. split_and!.
  - done.
  - by exists "https://game-2u.com", "24/01/some-game-ps4/".
  - by exists "https://game-2u.com/2024/01/some-game-", "/".
Defined.

(** ** Instances of the further properties *)

Lemma make_request_succeeds_after_failures_witness :
  (make_request_with_retry shared_game_url MAX_RETRIES (fresh_world flaky_site)).1
  = Return (Some (mkResponse 203 shared_game_url))
  /\ attempts_between (fresh_world flaky_site)
       (make_request_with_retry shared_game_url MAX_RETRIES
          (fresh_world flaky_site)).2 = 2
  /\ slept (fresh_world flaky_site)
       (make_request_with_retry shared_game_url MAX_RETRIES
          (fresh_world flaky_site)).2 = 7.
Proof.
  destruct (make_request_succeeds_after_failures shared_game_url MAX_RETRIES 1
              (fresh_world flaky_site) (mkResponse 203 shared_game_url))
    as (E & Ha & Hs).
  - unfold MAX_RETRIES. lia.
  - intros j Hj. assert (j = 0%nat) as -> by lia. reflexivity.
  - reflexivity.
  - reflexivity.
  - split_and!; [by rewrite E|exact Ha|exact Hs].
Defined.

Lemma make_request_exhausted_trace_witness :
  slept (fresh_world dead_site)
    (make_request_with_retry shared_game_url MAX_RETRIES (fresh_world dead_site)).2
  = 61.
Proof.
  refine (proj2 (make_request_exhausted_trace shared_game_url MAX_RETRIES
                   (fresh_world dead_site) _ _)).
  - unfold MAX_RETRIES. lia.
  - intros j _. reflexivity.
Defined.

Lemma make_request_none_iff_negative_witness :
  make_request_with_retry shared_game_url (-1) (fresh_world echo_site)
  = (Return None, fresh_world echo_site).
Proof.
  apply (proj2 (make_request_none_iff_negative shared_game_url (-1)
                  (fresh_world echo_site))).
  lia.
Defined.

Lemma process_page_unreachable_witness :
  (process_page listing_parser 3 (fresh_world dead_site)).1 = Return []
  /\ slept (fresh_world dead_site)
       (process_page listing_parser 3 (fresh_world dead_site)).2 = 61.
Proof.
  destruct (process_page_unreachable listing_parser 3 (fresh_world dead_site))
    as (Hr & _ & _ & Hs).
  - intros j _. reflexivity.
  - split; [exact Hr|exact Hs].
Defined.
